(** * Resized artwork reader: core/artwork/reader_resized.go

    A shallow embedding of the resize/encode decision pipeline of the
    artwork package: the cache key of a resized artwork, the facade that
    falls back to the original image, the lossless detector, the quality
    estimator and the pipeline itself.

    Conventions of the embedding.
    - A Go [int] is a [Z]; arithmetic the source performs on [int] is
      wrapped to 64 bits by [GoInt.wrap].
    - A Go [float64] is the rational number it denotes.  Every float
      operation is the exact operation followed by [F64.round], the
      round-to-nearest, ties-to-even rounding of IEEE 754 binary64.
      Infinities and NaN are outside the model: the lemmas
      [bitsPerPixel_divisor] and [interpolate_denominator] show that the
      two divisions of the source have a non-zero divisor, and all
      operands are 64-bit integers, quotients or products of two of them,
      far below the overflow threshold.
    - A byte stream ([io.Reader]) is the list of bytes it delivers.
    - The image library, the codecs and the artwork store are external:
      they are the fields of the classes [Imaging] and [ArtworkStore].
    - Logging calls have no effect on results and are left out. *)

From Stdlib Require Import ZArith QArith Qround Qpower Lia Lqa.
From Stdlib Require Import List String DecimalString Bool.
From Stdlib Require Strings.Byte Numbers.DecimalZ Numbers.DecimalPos.
Import ListNotations.

Local Open Scope Z_scope.

(* ================================================================== *)
(** * Part I: definitions *)
(* ================================================================== *)

(** ** Go integers *)

Module GoInt.
Definition minInt : Z := - 2 ^ 63.
Definition maxInt : Z := 2 ^ 63 - 1.

(** Two's-complement wrap-around of [int] arithmetic. *)
Definition wrap (z : Z) : Z := (z + 2 ^ 63) mod 2 ^ 64 - 2 ^ 63.

Definition in_int (z : Z) : Prop := minInt <= z <= maxInt.
End GoInt.

(** ** float64 *)

Module F64.
Local Open Scope Q_scope.

Definition t : Type := Q.

Definition prec : Z := 53.
Definition emin : Z := -1074.

Definition pow2 (e : Z) : Q := 2 ^ e.

(** [ilog2 x] is the exponent of the binade of [x > 0]:
    [2 ^ ilog2 x <= x < 2 ^ (ilog2 x + 1)]. *)
Definition ilog2 (x : Q) : Z :=
  let l := (Z.log2 (Qnum x) - Z.log2 (Zpos (Qden x)))%Z in
  if Qle_bool (pow2 l) x then l else (l - 1)%Z.

(** Nearest integer, ties to the even one. *)
Definition rne (q : Q) : Z :=
  let f := Qfloor q in
  match Qcompare (q - inject_Z f) (1 # 2) with
  | Lt => f
  | Gt => (f + 1)%Z
  | Eq => if Z.even f then f else (f + 1)%Z
  end.

(** Exponent of the unit in the last place: 53 significant bits,
    subnormals below [2 ^ -1022]. *)
Definition ulp_exp (x : Q) : Z := Z.max (ilog2 x - (prec - 1)) emin.

Definition round_at (c : Z) (x : Q) : Q :=
  inject_Z (rne (x * pow2 (- c))) * pow2 c.

Definition round_pos (x : Q) : Q := Qred (round_at (ulp_exp x) x).

Definition round (x : Q) : t :=
  match Qcompare x 0 with
  | Lt => - round_pos (- x)
  | Eq => 0
  | Gt => round_pos x
  end.

(** [float64(i)] for an integer [i]. *)
Definition of_int (z : Z) : t := round (inject_Z z).

Definition add (x y : t) : t := round (x + y).
Definition sub (x y : t) : t := round (x - y).
Definition mul (x y : t) : t := round (x * y).
Definition div (x y : t) : t := round (x / y).

Definition ltb (x y : t) : bool := negb (Qle_bool y x).

(** The fraction discarded (truncation towards zero). *)
Definition trunc (x : t) : Z :=
  if Qle_bool 0 x then Qfloor x else Qceiling x.

(** [int(f)]: the truncated value when it fits an [int].  When it does
    not, Go leaves the result to the implementation; the model takes the
    result of amd64, whose conversion instruction answers the smallest
    [int] for every value out of range. *)
Definition to_int (x : t) : Z :=
  let z := trunc x in
  if (GoInt.minInt <=? z)%Z && (z <=? GoInt.maxInt)%Z then z
  else GoInt.minInt.
End F64.

(** ** Configuration *)

(** The three fields of [conf.Server] the file reads. *)
Record Config : Type := mkConfig {
  CoverArtFormat : string;
  CoverArtMinQuality : Z;
  CoverArtMaxQuality : Z
}.

(** The formats the encoder dispatch of [resizeImage] names. *)
Definition coverArtFormats : list string :=
  ["webp"; "jxl"; "avif"; "png"; "jpeg"]%string.

(** ** Geometry: image.Point, image.Rectangle *)

Record Point : Type := mkPoint { X : Z; Y : Z }.
Record Rectangle : Type := mkRectangle { Min : Point; Max : Point }.

Definition Dx (r : Rectangle) : Z := GoInt.wrap (X (Max r) - X (Min r)).
Definition Dy (r : Rectangle) : Z := GoInt.wrap (Y (Max r) - Y (Min r)).

(** [image.Rect] orders its corners. *)
Definition Rect (x0 y0 x1 y1 : Z) : Rectangle :=
  let '(x0, x1) := if x1 <? x0 then (x1, x0) else (x0, x1) in
  let '(y0, y1) := if y1 <? y0 then (y1, y0) else (y0, y1) in
  mkRectangle (mkPoint x0 y0) (mkPoint x1 y1).

(** ** Bytes *)

Definition bytes : Type := list Byte.byte.

Definition bytes_eqb (a b : bytes) : bool :=
  if list_eq_dec Byte.byte_eq_dec a b then true else false.

Definition len (b : bytes) : Z := Z.of_nat (List.length b).

(** [b[lo:hi]]; every use in the source is guarded by a length test. *)
Definition slice (b : bytes) (lo hi : Z) : bytes :=
  firstn (Z.to_nat (hi - lo)) (skipn (Z.to_nat lo) b).

Definition byteZ (b : Byte.byte) : Z := Z.of_N (Byte.to_N b).

(** [binary.LittleEndian.Uint32]. *)
Definition le_uint32 (b : bytes) : Z :=
  match b with
  | b0 :: b1 :: b2 :: b3 :: _ =>
      Z.lor (Z.lor (Z.lor (byteZ b0) (Z.shiftl (byteZ b1) 8))
                   (Z.shiftl (byteZ b2) 16))
            (Z.shiftl (byteZ b3) 24)
  | _ => 0
  end.

Definition lit (s : string) : bytes := list_byte_of_string s.

(** [%d] of an [int]. *)
Definition itoa (z : Z) : string := NilZero.string_of_int (Z.to_int z).

(** ** Lossless suitability detector *)

Definition totalPixels (bounds : Rectangle) : Z :=
  GoInt.wrap (Dx bounds * Dy bounds).

(** [bpp := float64(originalBytes*8) / float64(totalPixels)]. *)
Definition bitsPerPixel (originalBytes : Z) (bounds : Rectangle) : F64.t :=
  F64.div (F64.of_int (GoInt.wrap (originalBytes * 8)))
          (F64.of_int (totalPixels bounds)).

(** The chunk walk of a RIFF/WEBP header, from [offset]; the result is the
    value of [isNativeLossless] when the loop is left.  Every turn of the
    loop moves [offset] forward by at least 8, so [fuel] counts turns;
    [None] is a loop cut short by the fuel ([webpScan_total]: it never is
    with the fuel [shouldEncodeLossless] passes).  Offsets stay below
    [len header + 2 ^ 32 + 9] and are not wrapped. *)
Fixpoint webpScan (fuel : nat) (header : bytes) (offset : Z) : option bool :=
  match fuel with
  | O => None
  | S fuel' =>
      if offset + 8 <=? len header then
        let chunkID := slice header offset (offset + 4) in
        if bytes_eqb chunkID (lit "VP8L") then Some true
        else if bytes_eqb chunkID (lit "VP8 ") then Some false
        else
          let chunkLen := le_uint32 (slice header (offset + 4) (offset + 8)) in
          let advance := 8 + chunkLen in
          let advance :=
            if negb (chunkLen mod 2 =? 0) then advance + 1 else advance in
          webpScan fuel' header (offset + advance)
      else Some false
  end.

Definition isRiffWebp (header : bytes) : bool :=
  (12 <=? len header)
  && bytes_eqb (slice header 0 4) (lit "RIFF")
  && bytes_eqb (slice header 8 12) (lit "WEBP").

Definition shouldEncodeLossless
  (format : string) (originalBytes : Z) (bounds : Rectangle) (header : bytes)
  : bool :=
  if totalPixels bounds =? 0 then false
  else
    let bpp := bitsPerPixel originalBytes bounds in
    let decide (isNativeLossless : bool) : bool :=
      if isNativeLossless && F64.ltb bpp 8%Q then true
      else if F64.ltb bpp 3%Q then true
      else false in
    if String.eqb format "png" then decide true
    else if String.eqb format "jpeg" then false
    else if String.eqb format "webp" && isRiffWebp header then
      match webpScan (S (List.length header)) header 12 with
      | Some isNativeLossless => decide isNativeLossless
      | None => decide false
      end
    else decide false.

(** ** Adaptive quality estimator *)

(** The interpolation branch of [qualityBySize]. *)
Definition interpolate (cfg : Config) (n m : Z) : Z :=
  let top := F64.of_int (GoInt.wrap (n - 300)) in
  let bottom := F64.of_int (GoInt.wrap (m - 300)) in
  let ratio := F64.div top bottom in
  let minQ := F64.of_int (CoverArtMinQuality cfg) in
  let maxQ := F64.of_int (CoverArtMaxQuality cfg) in
  let qualityFloat := F64.add minQ (F64.mul ratio (F64.sub maxQ minQ)) in
  F64.to_int qualityFloat.

(** The value of [qualityFloat] in the interpolation branch. *)
Definition qualityFloat (cfg : Config) (n m : Z) : F64.t :=
  let top := F64.of_int (GoInt.wrap (n - 300)) in
  let bottom := F64.of_int (GoInt.wrap (m - 300)) in
  let ratio := F64.div top bottom in
  let minQ := F64.of_int (CoverArtMinQuality cfg) in
  let maxQ := F64.of_int (CoverArtMaxQuality cfg) in
  F64.add minQ (F64.mul ratio (F64.sub maxQ minQ)).

(** The Go specification lets an implementation fuse [x*y + z] into one
    operation, rounded once; this is [interpolate] compiled that way. *)
Definition interpolate_fused (cfg : Config) (n m : Z) : Z :=
  let top := F64.of_int (GoInt.wrap (n - 300)) in
  let bottom := F64.of_int (GoInt.wrap (m - 300)) in
  let ratio := F64.div top bottom in
  let minQ := F64.of_int (CoverArtMinQuality cfg) in
  let maxQ := F64.of_int (CoverArtMaxQuality cfg) in
  F64.to_int (F64.round (minQ + ratio * F64.sub maxQ minQ)%Q).

Definition qualityBySize (cfg : Config) (n m : Z) : Z :=
  if n <? 300 then CoverArtMinQuality cfg
  else if m <=? n then CoverArtMaxQuality cfg
  else interpolate cfg n m.

(** ** The image library and the codecs *)

Definition Error : Type := string.

(** One encoder call: the codec and the options it is given. *)
Inductive Encoder : Type :=
| JpegxlEncode (quality : Z)
| PngEncode
| WebpEncode (quality : Z) (lossless : bool)
| AvifEncode (quality : Z)
| JpegEncode (quality : Z).

Class Imaging : Type := {
  Image : Type;
  (** [img.Bounds()] *)
  Bounds : Image -> Rectangle;
  (** [image.Decode] reading through the counting reader: the error, or
      the image, the name of its format and the bytes read ([cr.n]). *)
  Decode : bytes -> Error + (Image * string * Z);
  (** [imaging.Fit(img, w, h, imaging.Lanczos)] *)
  Fit : Image -> Z -> Z -> Image;
  (** [image.NewRGBA] *)
  NewRGBA : Rectangle -> Image;
  (** [imaging.OverlayCenter(bg, img, 1)] *)
  OverlayCenter : Image -> Image -> Image;
  (** An encoder writing into a fresh buffer: what it wrote and its error. *)
  Encode : Encoder -> Image -> bytes * option Error
}.

(** ** Resize/encode pipeline *)

Definition originalSizeOf (bounds : Rectangle) : Z :=
  Z.max (X (Max bounds)) (Y (Max bounds)).

(** Bounds anchored at the origin, with [int] coordinates: the bounds of
    the images the standard decoders return. *)
Definition anchored (bounds : Rectangle) : Prop :=
  Min bounds = mkPoint 0 0
  /\ GoInt.in_int (X (Max bounds)) /\ GoInt.in_int (Y (Max bounds)).

(** The encoder dispatch on [conf.Server.CoverArtFormat]. *)
Definition chooseEncoder
  (cfg : Config) (encodeLossless : bool) (size originalSize : Z) : Encoder :=
  let fmt := CoverArtFormat cfg in
  if encodeLossless then
    if String.eqb fmt "jxl" then JpegxlEncode 100
    else if String.eqb fmt "png" then PngEncode
    else WebpEncode 100 true
  else
    let q := qualityBySize cfg size (Z.min size originalSize) in
    if String.eqb fmt "webp" then WebpEncode q false
    else if String.eqb fmt "jxl" then JpegxlEncode q
    else if String.eqb fmt "avif" then AvifEncode q
    else JpegEncode q.

Section Pipeline.
Context {IM : Imaging}.

(** The image handed to the encoder. *)
Definition resizedImage (original : Image) (size : Z) (square : bool) : Image :=
  let bounds := Bounds original in
  let originalSize := originalSizeOf bounds in
  let resized :=
    if originalSize <=? size then original else Fit original size size in
  if square && negb (Dx bounds =? Dy bounds) then
    OverlayCenter (NewRGBA (Rect 0 0 size size)) resized
  else resized.

(** The encoder call of [resizeImage] for a decoded image. *)
Definition encoderFor
  (cfg : Config) (format : string) (originalBytes : Z) (bounds : Rectangle)
  (header : bytes) (size : Z) : Encoder :=
  chooseEncoder cfg (shouldEncodeLossless format originalBytes bounds header)
                size (originalSizeOf bounds).

(** What [resizeImage] returns: the reader ([None] is the nil reader, the
    no-op signal), the original size and the error. *)
Definition Resized : Type := option bytes * Z * option Error.

(** [resizeImage] with the list of the encoder calls it made. *)
Definition resizeImage
  (cfg : Config) (reader : bytes) (size : Z) (square : bool)
  : list (Encoder * Image) * Resized :=
  let header := firstn 512 reader in
  match Decode reader with
  | inl err => ([], (None, 0, Some err))
  | inr (original, format, originalBytes) =>
      let imgSrcSameFormatAsServer := String.eqb format (CoverArtFormat cfg) in
      let bounds := Bounds original in
      let originalSize := originalSizeOf bounds in
      if imgSrcSameFormatAsServer && (originalSize <=? size) then
        ([], (None, originalSize, None))
      else
        let resized := resizedImage original size square in
        let enc := encoderFor cfg format originalBytes bounds header size in
        let '(buf, err) := Encode enc resized in
        if imgSrcSameFormatAsServer && (originalBytes <=? len buf) then
          ([(enc, resized)], (None, originalSize, None))
        else
          match err with
          | Some e => ([(enc, resized)], (Some buf, originalSize, Some e))
          | None => ([(enc, resized)], (Some buf, originalSize, None))
          end
  end.
End Pipeline.

(** ** Resized artwork reader *)

(** The artwork cache behind [a.a.Get]: a call may change the store, and
    two calls may answer differently. *)
Class ArtworkStore : Type := {
  ArtworkID : Type;
  (** [model.ArtworkID.String] *)
  artIDString : ArtworkID -> string;
  Store : Type;
  (** [Get(ctx, artID, size, square)]: an error, or the stream of the
      artwork. *)
  Get : ArtworkID -> Z -> bool -> Store -> (Error + bytes) * Store
}.

Section Facade.
Context {IM : Imaging} {AS : ArtworkStore}.

Record resizedArtworkReader : Type := mkReader {
  artID : ArtworkID;
  cacheKey : string;
  lastUpdate : Z;
  size : Z;
  square : bool
}.

Definition Key (cfg : Config) (a : resizedArtworkReader) : string :=
  let baseKey := (cacheKey a ++ "." ++ itoa (size a))%string in
  if square a then (baseKey ++ ".square")%string
  else (baseKey ++ "." ++ CoverArtFormat cfg)%string.

Definition LastUpdated (a : resizedArtworkReader) : Z := lastUpdate a.

(** What [Reader] returns: the stream, the discriminator and the error. *)
Definition ReaderResult : Type := option bytes * string * option Error.

(** The result of a lookup, as the triple [Reader] hands back. *)
Definition asOriginal (r : Error + bytes) : ReaderResult :=
  match r with
  | inl err => (None, EmptyString, Some err)
  | inr orig => (Some orig, EmptyString, None)
  end.

Definition Reader (cfg : Config) (a : resizedArtworkReader) (s : Store)
  : ReaderResult * Store :=
  let '(r, s1) := Get (artID a) 0 false s in
  match r with
  | inl err => ((None, EmptyString, Some err), s1)
  | inr orig =>
      let '(resized, _, err) := snd (resizeImage cfg orig (size a) (square a)) in
      match err, resized with
      | None, Some buf =>
          ((Some buf,
            (artIDString (artID a) ++ "@" ++ itoa (size a))%string,
            None), s1)
      | _, _ =>
          let '(r2, s2) := Get (artID a) 0 false s1 in
          (asOriginal r2, s2)
      end
  end.
End Facade.

(** ** Scripted collaborators

    Concrete instances of the external interfaces, for evaluating the
    definitions on examples. *)

(** An image library whose images are their bounds, whose decoder answers
    [decoded], whose encoders all answer [encoded], and whose [Fit] copies
    an image that fits the box and scales a larger one down, keeping the
    aspect ratio. *)
Definition scriptedImaging
  (decoded : Error + (Rectangle * string * Z)) (encoded : bytes * option Error)
  : Imaging :=
  {| Image := Rectangle;
     Bounds := fun img => img;
     Decode := fun _ => decoded;
     Fit := fun img w h =>
       if (w <=? 0) || (h <=? 0) || (Dx img <=? 0) || (Dy img <=? 0)
       then Rect 0 0 0 0
       else if (Dx img <=? w) && (Dy img <=? h)
       then Rect 0 0 (Dx img) (Dy img)
       else if Dy img * w <=? Dx img * h
       then Rect 0 0 w (Dy img * w / Dx img)
       else Rect 0 0 (Dx img * h / Dy img) h;
     NewRGBA := fun r => r;
     OverlayCenter := fun bg _ => bg;
     Encode := fun _ _ => encoded |}.

(** A store that answers successive lookups from a script. *)
Definition scriptedStore : ArtworkStore :=
  {| ArtworkID := string;
     artIDString := fun id => id;
     Store := list (Error + bytes);
     Get := fun _ _ _ s =>
       match s with
       | [] => (inl "artwork not found"%string, [])
       | r :: s' => (r, s')
       end |}.

Definition zeros (n : nat) : bytes := repeat Byte.x00 n.

Definition webpConfig : Config := mkConfig "webp" 60 90.
Definition pngConfig : Config := mkConfig "png" 60 90.

(** A RIFF/WEBP header whose first chunk is the lossy ["VP8 "] chunk. *)
Definition vp8Header : bytes :=
  lit "RIFF" ++ [Byte.x1a; Byte.x4e; Byte.x00; Byte.x00] ++ lit "WEBP"
  ++ lit "VP8 " ++ [Byte.x0e; Byte.x4e; Byte.x00; Byte.x00] ++ zeros 12.

(** A 4000x3000 JPEG of 2 MB. *)
Definition largeJpeg : Error + (Rectangle * string * Z) :=
  inr (Rect 0 0 4000 3000, "jpeg"%string, 2097152).

(** A 500x500 PNG of 50 bytes. *)
Definition smallPng : Error + (Rectangle * string * Z) :=
  inr (Rect 0 0 500 500, "png"%string, 50).

(** The reader of album ["al-1"] at size 300. *)
Definition album300 (sq : bool) : @resizedArtworkReader scriptedStore :=
  @mkReader scriptedStore "al-1"%string "al-1.0"%string 0 300 sq.

(** Another reader with the cache key and size of [album300]. *)
Definition album300' (sq : bool) : @resizedArtworkReader scriptedStore :=
  @mkReader scriptedStore "al-1b"%string "al-1.0"%string 7 300 sq.

(** A decoder that rejects every stream. *)
Definition noDecoder : Imaging :=
  scriptedImaging (inl "image: unknown format"%string) ([], None).

(** ** The counting reader *)

(** An [io.Reader]: [ioRead r k] is [r.Read(p)] for a buffer [p] of length
    [k]; it gives the bytes written into [p] (their number is the [n] Go
    returns), the error, and the reader afterwards. *)
Class ioReader : Type := {
  Source : Type;
  ioRead : Source -> Z -> (bytes * option Error) * Source
}.

Module countingReader.
Section WithReader.
Context {R : ioReader}.

Record t : Type := mk { r : Source; n : Z }.

Definition Read (c : t) (k : Z) : (bytes * option Error) * t :=
  let '((p, err), r') := ioRead (r c) k in
  ((p, err), mk r' (GoInt.wrap (n c + len p))).
End WithReader.
End countingReader.

(** A client of a reader: one [Read] per buffer length of [ks], in order;
    the results of the calls and the reader afterwards. *)
Fixpoint readEach {R : ioReader} (s : Source) (ks : list Z)
  : list (bytes * option Error) * Source :=
  match ks with
  | [] => ([], s)
  | k :: ks' =>
      let '(out, s1) := ioRead s k in
      let '(outs, s2) := readEach s1 ks' in
      (out :: outs, s2)
  end.

(** The same client reading through a counting reader. *)
Fixpoint countEach {R : ioReader} (c : countingReader.t) (ks : list Z)
  : list (bytes * option Error) * countingReader.t :=
  match ks with
  | [] => ([], c)
  | k :: ks' =>
      let '(out, c1) := countingReader.Read c k in
      let '(outs, c2) := countEach c1 ks' in
      (out :: outs, c2)
  end.

(** The number of bytes a list of [Read] results delivered. *)
Definition delivered (outs : list (bytes * option Error)) : Z :=
  fold_right (fun out acc => len (fst out) + acc) 0 outs.

(** A reader over a byte string, after [bytes.Reader]: at the end it
    answers [io.EOF], before it hands out as much as the buffer takes. *)
Definition bytesReader : ioReader :=
  {| Source := bytes;
     ioRead := fun s k =>
       match s with
       | [] => (([], Some "EOF"%string), [])
       | _ => ((firstn (Z.to_nat k) s, None), skipn (Z.to_nat k) s)
       end |}.

(** ** resizedFromOriginal *)

(** [a.getArtworkReader]: an error, or a reader of the original, of which
    the constructor uses [Key()] and [LastUpdated()]. *)
Class ArtworkReaders {AS : ArtworkStore} : Type := {
  getArtworkReader :
    ArtworkID -> Z -> bool -> Store -> (Error + (string * Z)) * Store
}.

Definition resizedFromOriginal {AS : ArtworkStore} {AR : ArtworkReaders}
  (artID : ArtworkID) (size : Z) (square : bool) (s : Store)
  : (Error + resizedArtworkReader) * Store :=
  let '(res, s1) := getArtworkReader artID 0 false s in
  match res with
  | inl err => (inl err, s1)
  | inr (key, lastUpdated) =>
      (inr (mkReader artID key lastUpdated size square), s1)
  end.

(** Originals of the scripted store: found under the key ["{id}.0"] unless
    the script is exhausted. *)
Definition scriptedReaders : @ArtworkReaders scriptedStore :=
  {| getArtworkReader := fun (id : @ArtworkID scriptedStore) _ _ s =>
       match s with
       | [] => (inl "artwork not found"%string, [])
       | _ => (inr ((id ++ ".0")%string, 1700000000), s)
       end |}.

(** The separator of the cache key, the character [.]. *)
Definition dot : Ascii.ascii := Ascii.ascii_of_nat 46.

(** A string without the separator. *)
Fixpoint nodot (s : string) : bool :=
  match s with
  | EmptyString => true
  | String c s' => negb (Ascii.eqb c dot) && nodot s'
  end.

(** Quality bounds a configuration can sensibly hold: ordered, and of
    magnitude at most [2 ^ 52]. *)
Definition quality_bounds_ok (cfg : Config) : Prop :=
  - 2 ^ 52 <= CoverArtMinQuality cfg
  /\ CoverArtMinQuality cfg <= CoverArtMaxQuality cfg
  /\ CoverArtMaxQuality cfg <= 2 ^ 52.

(** The value of [isNativeLossless] when [shouldEncodeLossless] reaches
    its decision. *)
Definition isNativeLossless (format : string) (header : bytes) : bool :=
  if String.eqb format "png" then true
  else if String.eqb format "webp" && isRiffWebp header then
    match webpScan (S (List.length header)) header 12 with
    | Some b => b
    | None => false
    end
  else false.

(** A chunk header with tag [tag] lies in [header] at or after [from]. *)
Definition hasChunk (header : bytes) (from : Z) (tag : bytes) : Prop :=
  exists offset,
    from <= offset /\ offset + 8 <= len header
    /\ slice header offset (offset + 4) = tag.

(** An extended WebP header: a VP8X chunk of 10 bytes, then the VP8L
    chunk. *)
Definition vp8xHeader : bytes :=
  lit "RIFF" ++ [Byte.x1a; Byte.x4e; Byte.x00; Byte.x00] ++ lit "WEBP"
  ++ lit "VP8X" ++ [Byte.x0a; Byte.x00; Byte.x00; Byte.x00] ++ zeros 10
  ++ lit "VP8L" ++ [Byte.x00; Byte.x4e; Byte.x00; Byte.x00] ++ zeros 12.

(** A configuration whose maximum quality is the largest [int]. *)
Definition hugeQualityConfig : Config := mkConfig "webp" 0 (2 ^ 63 - 1).



(* ================================================================== *)
(** * Part II: properties *)
(* ================================================================== *)

(** ** Rounding to float64 *)

Module F64Facts.
Import F64.
Local Open Scope Q_scope.

Lemma pow2_pos e : 0 < pow2 e.
Proof. apply Qpower_0_lt. reflexivity. Qed.

Lemma pow2_add a b : pow2 (a + b) == pow2 a * pow2 b.
Proof. apply Qpower_plus. discriminate. Qed.

Lemma pow2_le a b : (a <= b)%Z -> pow2 a <= pow2 b.
Proof. intros H. apply Qpower_le_compat_l; [exact H | discriminate]. Qed.

Lemma pow2_lt a b : (a < b)%Z -> pow2 a < pow2 b.
Proof. intros H. apply Qpower_lt_compat_l; [exact H | reflexivity]. Qed.

Lemma pow2_lt_inv a b : pow2 a < pow2 b -> (a < b)%Z.
Proof. intros H. apply (Qpower_lt_compat_l_inv 2); [exact H | reflexivity]. Qed.

Lemma pow2_Z e : (0 <= e)%Z -> pow2 e == inject_Z (2 ^ e).
Proof. intros H. unfold pow2. rewrite Zpower_Qpower by exact H. reflexivity. Qed.

Lemma pow2_cancel a : pow2 a * pow2 (- a) == 1.
Proof. rewrite <- pow2_add. replace (a + - a)%Z with 0%Z by ring. reflexivity. Qed.

Lemma Q_as_frac x : x == inject_Z (Qnum x) / inject_Z (Zpos (Qden x)).
Proof. destruct x as [n d]. simpl. rewrite Qmake_Qdiv. reflexivity. Qed.

Lemma ilog2_bounds x : 0 < x -> pow2 (ilog2 x) <= x /\ x < pow2 (ilog2 x + 1).
Proof.
  intros Hx. unfold ilog2.
  set (n := Qnum x). set (d := Zpos (Qden x)).
  assert (Hn : (0 < n)%Z).
  { unfold n. destruct x as [xn xd]. unfold Qlt in Hx. simpl in *. lia. }
  assert (Hd : (0 < d)%Z) by (unfold d; lia).
  destruct (Z.log2_spec n Hn) as [Hn1 Hn2].
  destruct (Z.log2_spec d Hd) as [Hd1 Hd2].
  set (a := Z.log2 n) in *. set (b := Z.log2 d) in *.
  assert (Ha : (0 <= a)%Z) by apply Z.log2_nonneg.
  assert (Hb : (0 <= b)%Z) by apply Z.log2_nonneg.
  assert (Hxe : x == inject_Z n / inject_Z d) by apply Q_as_frac.
  assert (HdQ : 0 < inject_Z d) by (change 0 with (inject_Z 0); rewrite <- Zlt_Qlt; lia).
  (* x < 2^(a - b + 1) and 2^(a - b - 1) < x *)
  assert (Hup : x < pow2 (a - b + 1)).
  { rewrite Hxe. apply Qlt_shift_div_r; [exact HdQ|].
    apply Qlt_le_trans with (pow2 (a + 1)).
    - rewrite pow2_Z by lia. rewrite <- Zlt_Qlt. replace (a + 1)%Z with (Z.succ a) by lia. exact Hn2.
    - replace (a + 1)%Z with ((a - b + 1) + b)%Z by ring. rewrite pow2_add.
      apply Qmult_le_l; [apply pow2_pos|]. rewrite pow2_Z by lia. rewrite <- Zle_Qle. exact Hd1. }
  assert (Hlo : pow2 (a - b - 1) < x).
  { rewrite Hxe. apply Qlt_shift_div_l; [exact HdQ|].
    apply Qlt_le_trans with (pow2 a).
    - replace a with ((a - b - 1) + (b + 1))%Z at 2 by ring. rewrite pow2_add.
      apply Qmult_lt_l; [apply pow2_pos|]. rewrite pow2_Z by lia. rewrite <- Zlt_Qlt.
      replace (b + 1)%Z with (Z.succ b) by lia. exact Hd2.
    - rewrite pow2_Z by lia. rewrite <- Zle_Qle. exact Hn1. }
  destruct (Qle_bool (pow2 (a - b)) x) eqn:E.
  - apply Qle_bool_iff in E. split; [exact E | exact Hup].
  - split.
    + apply Qlt_le_weak. exact Hlo.
    + replace (a - b - 1 + 1)%Z with (a - b)%Z by ring.
      apply Qnot_le_lt. intros H. apply Qle_bool_iff in H. congruence.
Qed.

Lemma ilog2_mono x y : 0 < x -> x <= y -> (ilog2 x <= ilog2 y)%Z.
Proof.
  intros Hx Hxy.
  assert (Hy : 0 < y) by (apply Qlt_le_trans with x; assumption).
  destruct (ilog2_bounds x Hx) as [Hx1 _].
  destruct (ilog2_bounds y Hy) as [_ Hy2].
  assert (H : pow2 (ilog2 x) < pow2 (ilog2 y + 1)).
  { apply Qle_lt_trans with x; [exact Hx1|].
    apply Qle_lt_trans with y; assumption. }
  apply pow2_lt_inv in H. lia.
Qed.

Lemma ilog2_unique x e : pow2 e <= x -> x < pow2 (e + 1) -> ilog2 x = e.
Proof.
  intros H1 H2.
  assert (Hx : 0 < x) by (apply Qlt_le_trans with (pow2 e); [apply pow2_pos | exact H1]).
  destruct (ilog2_bounds x Hx) as [Hx1 Hx2].
  assert (A : pow2 e < pow2 (ilog2 x + 1)) by (apply Qle_lt_trans with x; assumption).
  assert (B : pow2 (ilog2 x) < pow2 (e + 1)) by (apply Qle_lt_trans with x; assumption).
  apply pow2_lt_inv in A. apply pow2_lt_inv in B. lia.
Qed.

Lemma rne_range q : (Qfloor q <= rne q <= Qfloor q + 1)%Z.
Proof.
  unfold rne. destruct (Qcompare _ _); [destruct (Z.even _)| |]; lia.
Qed.

Lemma rne_Z k : rne (inject_Z k) = k.
Proof.
  unfold rne. rewrite Qfloor_Z.
  destruct (Qcompare_spec (inject_Z k - inject_Z k) (1 # 2)) as [H | H | H];
    [exfalso; lra | reflexivity | exfalso; lra].
Qed.

Lemma rne_mono x y : x <= y -> (rne x <= rne y)%Z.
Proof.
  intros Hxy.
  pose proof (Qfloor_resp_le x y Hxy) as Hf.
  pose proof (rne_range x) as Rx. pose proof (rne_range y) as Ry.
  destruct (Z.eq_dec (Qfloor x) (Qfloor y)) as [E | NE]; [| lia].
  unfold rne. rewrite <- E.
  destruct (Qcompare_spec (x - inject_Z (Qfloor x)) (1 # 2)) as [Hx | Hx | Hx];
    destruct (Qcompare_spec (y - inject_Z (Qfloor x)) (1 # 2)) as [Hy | Hy | Hy];
    try destruct (Z.even (Qfloor x)); try lia; exfalso; lra.
Qed.

#[global] Instance rne_comp : Proper (Qeq ==> eq) rne.
Proof.
  intros x y E. apply Z.le_antisymm; apply rne_mono; rewrite E; apply Qle_refl.
Qed.

Lemma round_at_mono c x y : x <= y -> round_at c x <= round_at c y.
Proof.
  intros H. unfold round_at.
  apply Qmult_le_compat_r; [| apply Qlt_le_weak, pow2_pos].
  rewrite <- Zle_Qle. apply rne_mono.
  apply Qmult_le_compat_r; [exact H | apply Qlt_le_weak, pow2_pos].
Qed.

Lemma round_at_fix c k x : x == inject_Z k * pow2 c -> round_at c x == x.
Proof.
  intros E. unfold round_at.
  assert (H : x * pow2 (- c) == inject_Z k).
  { rewrite E, <- Qmult_assoc, pow2_cancel. ring. }
  rewrite H, rne_Z. symmetry. exact E.
Qed.

Lemma round_at_pow2 c e : (c <= e)%Z -> round_at c (pow2 e) == pow2 e.
Proof.
  intros H. apply (round_at_fix c (2 ^ (e - c))).
  rewrite <- pow2_Z by lia. rewrite <- pow2_add.
  replace (e - c + c)%Z with e by ring. reflexivity.
Qed.

Lemma round_pos_eq x : round_pos x == round_at (ulp_exp x) x.
Proof. apply Qred_correct. Qed.

Lemma round_pos_nonneg x : 0 <= x -> 0 <= round_pos x.
Proof.
  intros H. rewrite round_pos_eq. unfold round_at.
  apply Qmult_le_0_compat; [| apply Qlt_le_weak, pow2_pos].
  change 0 with (inject_Z 0). rewrite <- Zle_Qle.
  rewrite <- (rne_Z 0). apply rne_mono.
  apply Qmult_le_0_compat; [exact H | apply Qlt_le_weak, pow2_pos].
Qed.

Lemma round_pos_mono x y : 0 < x -> x <= y -> round_pos x <= round_pos y.
Proof.
  intros Hx Hxy.
  assert (Hy : 0 < y) by (apply Qlt_le_trans with x; assumption).
  rewrite !round_pos_eq.
  pose proof (ilog2_mono x y Hx Hxy) as Hl.
  unfold ulp_exp.
  destruct (Z.eq_dec (Z.max (ilog2 x - (prec - 1)) emin)
                     (Z.max (ilog2 y - (prec - 1)) emin)) as [E | NE].
  - rewrite E. apply round_at_mono. exact Hxy.
  - set (cx := Z.max (ilog2 x - (prec - 1)) emin) in *.
    set (cy := Z.max (ilog2 y - (prec - 1)) emin) in *.
    assert (Hc : (cx < cy)%Z) by lia.
    assert (Hcy : cy = (ilog2 y - (prec - 1))%Z) by lia.
    destruct (ilog2_bounds y Hy) as [Hy1 _].
    assert (HxB : x < pow2 (ilog2 y)).
    { apply Qnot_le_lt. intros HB.
      assert (ilog2 y <= ilog2 x)%Z.
      { destruct (ilog2_bounds x Hx) as [_ Hx2].
        assert (T : pow2 (ilog2 y) < pow2 (ilog2 x + 1))
          by (apply Qle_lt_trans with x; assumption).
        apply pow2_lt_inv in T. lia. }
      lia. }
    apply Qle_trans with (pow2 (ilog2 y)).
    + rewrite <- (round_at_pow2 cx (ilog2 y)) by (unfold prec in *; lia).
      apply round_at_mono, Qlt_le_weak, HxB.
    + rewrite <- (round_at_pow2 cy (ilog2 y)) at 1 by (unfold prec in *; lia).
      apply round_at_mono, Hy1.
Qed.

Theorem round_mono x y : x <= y -> round x <= round y.
Proof.
  intros Hxy. unfold round.
  destruct (Qcompare_spec x 0) as [Hx | Hx | Hx];
    destruct (Qcompare_spec y 0) as [Hy | Hy | Hy]; try (exfalso; lra).
  - apply Qle_refl.
  - apply round_pos_nonneg. lra.
  - pose proof (round_pos_nonneg (- x)). lra.
  - apply Qopp_le_compat. apply round_pos_mono; lra.
  - pose proof (round_pos_nonneg (- x)). pose proof (round_pos_nonneg y). lra.
  - apply round_pos_mono; assumption.
Qed.

#[global] Instance round_comp : Proper (Qeq ==> Qeq) round.
Proof.
  intros x y E. apply Qle_antisym; apply round_mono; rewrite E; apply Qle_refl.
Qed.

(** Integers of magnitude at most [2 ^ 53] are floats. *)
Lemma pow2_le_inv a b : pow2 a <= pow2 b -> (a <= b)%Z.
Proof. intros H. apply (Qpower_le_compat_l_inv 2); [exact H | reflexivity]. Qed.

Lemma round_pos_int k :
  (0 < k <= 2 ^ 53)%Z -> round_pos (inject_Z k) == inject_Z k.
Proof.
  intros [Hk0 Hk].
  assert (Hq : 0 < inject_Z k) by (change 0 with (inject_Z 0); rewrite <- Zlt_Qlt; lia).
  rewrite round_pos_eq.
  destruct (ilog2_bounds _ Hq) as [H1 H2].
  set (e := ilog2 (inject_Z k)) in *.
  assert (He : (e <= 53)%Z).
  { apply pow2_le_inv. apply Qle_trans with (inject_Z k); [exact H1|].
    rewrite (pow2_Z 53) by lia. rewrite <- Zle_Qle. exact Hk. }
  unfold ulp_exp. fold e. unfold prec, emin.
  destruct (Z.eq_dec e 53) as [E | NE].
  - assert (Hk' : inject_Z k == pow2 53).
    { apply Qle_antisym.
      - rewrite (pow2_Z 53) by lia. rewrite <- Zle_Qle. exact Hk.
      - rewrite <- E. exact H1. }
    rewrite E. apply (round_at_fix _ (2 ^ 52)). rewrite Hk'. reflexivity.
  - set (c := Z.max (e - (53 - 1)) (-1074)).
    assert (Hc : (c <= 0)%Z) by (unfold c; lia).
    apply (round_at_fix c (k * 2 ^ (- c))).
    rewrite inject_Z_mult. rewrite <- pow2_Z by lia.
    rewrite <- Qmult_assoc. rewrite (Qmult_comm (pow2 (- c))), pow2_cancel. ring.
Qed.

Theorem round_int k :
  (- 2 ^ 53 <= k <= 2 ^ 53)%Z -> round (inject_Z k) == inject_Z k.
Proof.
  intros Hk. unfold round.
  destruct (Qcompare_spec (inject_Z k) 0) as [H | H | H].
  - symmetry. exact H.
  - change 0 with (inject_Z 0) in H. rewrite <- Zlt_Qlt in H.
    rewrite <- inject_Z_opp. rewrite round_pos_int by lia.
    rewrite inject_Z_opp. ring.
  - change 0 with (inject_Z 0) in H. rewrite <- Zlt_Qlt in H.
    apply round_pos_int. lia.
Qed.

Lemma round_nonneg x : 0 <= x -> 0 <= round x.
Proof.
  intros H. change 0 with (round 0) at 1. apply round_mono. exact H.
Qed.

Lemma round_le_int x k :
  (- 2 ^ 53 <= k <= 2 ^ 53)%Z -> x <= inject_Z k -> round x <= inject_Z k.
Proof.
  intros Hk H. rewrite <- (round_int k Hk). apply round_mono. exact H.
Qed.

Lemma round_ge_int x k :
  (- 2 ^ 53 <= k <= 2 ^ 53)%Z -> inject_Z k <= x -> inject_Z k <= round x.
Proof.
  intros Hk H. rewrite <- (round_int k Hk). apply round_mono. exact H.
Qed.

(** [float64(i)] is monotone, and keeps the sign of [i]. *)
Lemma of_int_mono a b : (a <= b)%Z -> of_int a <= of_int b.
Proof. intros H. apply round_mono. rewrite <- Zle_Qle. exact H. Qed.

Lemma of_int_ge_1 z : (1 <= z)%Z -> 1 <= of_int z.
Proof.
  intros H. change 1 with (inject_Z 1). apply round_ge_int; [lia|].
  rewrite <- Zle_Qle. exact H.
Qed.

Lemma of_int_le_m1 z : (z <= -1)%Z -> of_int z <= inject_Z (-1).
Proof.
  intros H. apply round_le_int; [lia|]. rewrite <- Zle_Qle. exact H.
Qed.

(** The divisor of a float division by a converted non-zero integer is
    not zero. *)
Theorem of_int_nonzero z : z <> 0%Z -> ~ of_int z == 0.
Proof.
  intros Hz E.
  destruct (Z_lt_le_dec z 0) as [Hn | Hp].
  - pose proof (of_int_le_m1 z ltac:(lia)) as H. rewrite E in H.
    unfold Qle in H. simpl in H. lia.
  - pose proof (of_int_ge_1 z ltac:(lia)) as H. rewrite E in H.
    unfold Qle in H. simpl in H. lia.
Qed.

(** Truncation is monotone. *)
Theorem trunc_mono x y : x <= y -> (trunc x <= trunc y)%Z.
Proof.
  intros H. unfold trunc.
  destruct (Qle_bool 0 x) eqn:Ex; destruct (Qle_bool 0 y) eqn:Ey.
  - apply Qfloor_resp_le, H.
  - apply Qle_bool_iff in Ex.
    assert (0 <= y) by (apply Qle_trans with x; assumption).
    apply Qle_bool_iff in H0. congruence.
  - assert (Hx : x <= 0).
    { apply Qlt_le_weak, Qnot_le_lt. intros C. apply Qle_bool_iff in C. congruence. }
    apply Qle_bool_iff in Ey.
    apply Z.le_trans with 0%Z.
    + rewrite <- (Qceiling_Z 0). apply Qceiling_resp_le, Hx.
    + rewrite <- (Qfloor_Z 0). apply Qfloor_resp_le, Ey.
  - apply Qceiling_resp_le, H.
Qed.

Lemma trunc_int k : trunc (inject_Z k) = k.
Proof.
  unfold trunc. destruct (Qle_bool 0 (inject_Z k));
    [apply Qfloor_Z | apply Qceiling_Z].
Qed.

#[global] Instance trunc_comp : Proper (Qeq ==> eq) trunc.
Proof.
  intros x y E. apply Z.le_antisymm; apply trunc_mono; rewrite E; apply Qle_refl.
Qed.

#[global] Instance to_int_comp : Proper (Qeq ==> eq) to_int.
Proof.
  intros x y E. unfold to_int. rewrite (trunc_comp x y E). reflexivity.
Qed.

(** [int(f)] is the truncation when that fits an [int]. *)
Lemma to_int_fits x : GoInt.in_int (trunc x) -> to_int x = trunc x.
Proof.
  unfold GoInt.in_int, to_int. intros [L U].
  destruct (Z.leb_spec GoInt.minInt (trunc x)); [| lia].
  destruct (Z.leb_spec (trunc x) GoInt.maxInt); [reflexivity | lia].
Qed.

Lemma to_int_int k : GoInt.in_int k -> to_int (inject_Z k) = k.
Proof.
  intros H. rewrite to_int_fits; rewrite trunc_int; [reflexivity | exact H].
Qed.

(** [int(f)] is monotone up to the largest [int]; past it the result
    falls back to the smallest one. *)
Theorem to_int_mono x y :
  x <= y -> (trunc y <= GoInt.maxInt)%Z -> (to_int x <= to_int y)%Z.
Proof.
  intros H U. pose proof (trunc_mono x y H) as T. unfold to_int.
  destruct (Z.leb_spec GoInt.minInt (trunc x));
    destruct (Z.leb_spec (trunc x) GoInt.maxInt);
    destruct (Z.leb_spec GoInt.minInt (trunc y));
    destruct (Z.leb_spec (trunc y) GoInt.maxInt);
    cbn [andb]; lia.
Qed.

Lemma to_int_between lo hi x :
  GoInt.in_int lo -> GoInt.in_int hi ->
  inject_Z lo <= x -> x <= inject_Z hi ->
  (lo <= to_int x <= hi)%Z.
Proof.
  intros Hlo Hhi L U.
  apply trunc_mono in L. apply trunc_mono in U. rewrite trunc_int in L, U.
  rewrite to_int_fits; [lia|].
  unfold GoInt.in_int in *. lia.
Qed.
End F64Facts.

(** ** Go integers *)

Lemma wrap_id z : GoInt.in_int z -> GoInt.wrap z = z.
Proof.
  unfold GoInt.in_int, GoInt.wrap, GoInt.minInt, GoInt.maxInt. intros H.
  rewrite Z.mod_small by lia. lia.
Qed.

(** ** Adaptive quality estimator *)

(** In the interpolation branch the subtraction [m - 300] does not wrap
    and its float is positive: the division is by a non-zero number. *)
Lemma interpolate_denominator n m :
  GoInt.in_int m -> 300 <= n -> n < m ->
  GoInt.wrap (m - 300) = m - 300 /\
  (0 < F64.of_int (GoInt.wrap (m - 300)))%Q.
Proof.
  intros Hm H1 H2.
  assert (W : GoInt.wrap (m - 300) = m - 300).
  { apply wrap_id. unfold GoInt.in_int, GoInt.minInt, GoInt.maxInt in *. lia. }
  split; [exact W|]. rewrite W.
  apply Qlt_le_trans with 1%Q; [reflexivity|].
  apply F64Facts.of_int_ge_1. lia.
Qed.

Section Quality.
Variable cfg : Config.
Let minQuality := CoverArtMinQuality cfg.
Let maxQuality := CoverArtMaxQuality cfg.

Lemma quality_below_300 n m : n < 300 -> qualityBySize cfg n m = minQuality.
Proof.
  intros H. unfold qualityBySize.
  destruct (Z.ltb_spec n 300); [reflexivity | lia].
Qed.

Lemma quality_at_bound n m :
  300 <= n -> m <= n -> qualityBySize cfg n m = maxQuality.
Proof.
  intros H1 H2. unfold qualityBySize.
  destruct (Z.ltb_spec n 300); [lia|].
  destruct (Z.leb_spec m n); [reflexivity | lia].
Qed.

Lemma quality_interpolated n m :
  300 <= n -> n < m -> qualityBySize cfg n m = interpolate cfg n m.
Proof.
  intros H1 H2. unfold qualityBySize.
  destruct (Z.ltb_spec n 300); [lia|].
  destruct (Z.leb_spec m n); [lia | reflexivity].
Qed.

Lemma interpolate_float n m :
  interpolate cfg n m = F64.to_int (qualityFloat cfg n m).
Proof. reflexivity. Qed.

(** The float of the interpolation grows with the requested size. *)
Lemma qualityFloat_mono n1 n2 m :
  GoInt.in_int n1 -> GoInt.in_int n2 -> GoInt.in_int m ->
  minQuality <= maxQuality ->
  300 <= n1 -> n1 <= n2 -> n2 < m ->
  (qualityFloat cfg n1 m <= qualityFloat cfg n2 m)%Q.
Proof.
  intros I1 I2 Im Hq H1 H12 H2. unfold qualityFloat.
  destruct (interpolate_denominator n2 m Im ltac:(lia) H2) as [_ Hb].
  set (bottom := F64.of_int (GoInt.wrap (m - 300))) in *.
  assert (W1 : GoInt.wrap (n1 - 300) = n1 - 300).
  { apply wrap_id. unfold GoInt.in_int, GoInt.minInt, GoInt.maxInt in *. lia. }
  assert (W2 : GoInt.wrap (n2 - 300) = n2 - 300).
  { apply wrap_id. unfold GoInt.in_int, GoInt.minInt, GoInt.maxInt in *. lia. }
  rewrite W1, W2.
  assert (Ht : (F64.of_int (n1 - 300) <= F64.of_int (n2 - 300))%Q)
    by (apply F64Facts.of_int_mono; lia).
  assert (Hd : (0 <= F64.sub (F64.of_int (CoverArtMaxQuality cfg))
                             (F64.of_int (CoverArtMinQuality cfg)))%Q).
  { apply F64Facts.round_nonneg.
    pose proof (F64Facts.of_int_mono _ _ Hq). fold minQuality maxQuality. lra. }
  unfold F64.add.
  apply F64Facts.round_mono. apply Qplus_le_r.
  unfold F64.mul. apply F64Facts.round_mono.
  apply Qmult_le_compat_r; [| exact Hd].
  unfold F64.div. apply F64Facts.round_mono.
  unfold Qdiv. apply Qmult_le_compat_r; [exact Ht|].
  apply Qinv_le_0_compat, Qlt_le_weak, Hb.
Qed.

(** With quality bounds of magnitude at most [2 ^ 52] the bounds and
    their difference are floats, and the ratio lies between 0 and 1. *)
Lemma interpolation_parts n m :
  GoInt.in_int n -> GoInt.in_int m ->
  - 2 ^ 52 <= minQuality -> minQuality <= maxQuality -> maxQuality <= 2 ^ 52 ->
  300 <= n -> n < m ->
  (F64.of_int minQuality == inject_Z minQuality)%Q
  /\ (F64.sub (F64.of_int maxQuality) (F64.of_int minQuality)
      == inject_Z (maxQuality - minQuality))%Q
  /\ (0 <= F64.div (F64.of_int (GoInt.wrap (n - 300)))
                   (F64.of_int (GoInt.wrap (m - 300))) <= 1)%Q.
Proof.
  intros In Im Hlo Hq Hhi H1 H2.
  destruct (interpolate_denominator n m Im H1 H2) as [Wm Hb].
  assert (Wn : GoInt.wrap (n - 300) = n - 300).
  { apply wrap_id. unfold GoInt.in_int, GoInt.minInt, GoInt.maxInt in *. lia. }
  rewrite Wn. rewrite Wm in *.
  set (top := F64.of_int (n - 300)).
  set (bottom := F64.of_int (m - 300)) in *.
  assert (Emin : (F64.of_int minQuality == inject_Z minQuality)%Q)
    by (apply F64Facts.round_int; lia).
  assert (Emax : (F64.of_int maxQuality == inject_Z maxQuality)%Q)
    by (apply F64Facts.round_int; lia).
  split; [exact Emin|]. split.
  - unfold F64.sub. rewrite Emin, Emax.
    setoid_replace (inject_Z maxQuality - inject_Z minQuality)%Q
      with (inject_Z (maxQuality - minQuality))
      by (unfold Z.sub; rewrite inject_Z_plus, inject_Z_opp; reflexivity).
    apply F64Facts.round_int. lia.
  - assert (Ht0 : (0 <= top)%Q).
    { unfold top. apply F64Facts.round_nonneg.
      change 0%Q with (inject_Z 0). rewrite <- Zle_Qle. lia. }
    assert (Htb : (top <= bottom)%Q) by (apply F64Facts.of_int_mono; lia).
    unfold F64.div. split.
    + apply F64Facts.round_nonneg. apply Qle_shift_div_l; [exact Hb | lra].
    + change 1%Q with (inject_Z 1). apply F64Facts.round_le_int; [lia|].
      apply Qle_shift_div_r; [exact Hb|]. change (inject_Z 1) with 1%Q. lra.
Qed.

(** With such bounds the float of the interpolation lies between them. *)
Lemma qualityFloat_between n m :
  GoInt.in_int n -> GoInt.in_int m ->
  - 2 ^ 52 <= minQuality -> minQuality <= maxQuality -> maxQuality <= 2 ^ 52 ->
  300 <= n -> n < m ->
  (inject_Z minQuality <= qualityFloat cfg n m)%Q
  /\ (qualityFloat cfg n m <= inject_Z maxQuality)%Q.
Proof.
  intros In Im Hlo Hq Hhi H1 H2.
  destruct (interpolation_parts n m In Im Hlo Hq Hhi H1 H2) as (Emin & Ed & Hr).
  unfold qualityFloat. fold minQuality maxQuality.
  set (ratio := F64.div _ _) in *.
  assert (Hd0 : (0 <= inject_Z (maxQuality - minQuality))%Q).
  { change 0%Q with (inject_Z 0). rewrite <- Zle_Qle. lia. }
  assert (Hp : (0 <= F64.mul ratio (F64.sub (F64.of_int maxQuality)
                                            (F64.of_int minQuality))
                <= inject_Z (maxQuality - minQuality))%Q).
  { unfold F64.mul. rewrite Ed. split.
    - apply F64Facts.round_nonneg. apply Qmult_le_0_compat; lra.
    - apply F64Facts.round_le_int; [lia|].
      rewrite <- (Qmult_1_l (inject_Z (maxQuality - minQuality))) at 2.
      apply Qmult_le_compat_r; lra. }
  set (p := F64.mul ratio _) in *.
  unfold F64.add. rewrite Emin. split.
  - apply F64Facts.round_ge_int; [lia | lra].
  - apply F64Facts.round_le_int; [lia|].
    assert (E : (inject_Z maxQuality
                 == inject_Z minQuality + inject_Z (maxQuality - minQuality))%Q).
    { rewrite <- inject_Z_plus. f_equiv. ring. }
    rewrite E. lra.
Qed.

Lemma quality_bounds_int :
  - 2 ^ 52 <= minQuality -> minQuality <= maxQuality -> maxQuality <= 2 ^ 52 ->
  GoInt.in_int minQuality /\ GoInt.in_int maxQuality.
Proof. unfold GoInt.in_int, GoInt.minInt, GoInt.maxInt. lia. Qed.

(** With such bounds the interpolated quality lies between them: the
    float fits an [int], and [int(qualityFloat)] is its truncation. *)
Lemma interpolate_between n m :
  GoInt.in_int n -> GoInt.in_int m ->
  - 2 ^ 52 <= minQuality -> minQuality <= maxQuality -> maxQuality <= 2 ^ 52 ->
  300 <= n -> n < m ->
  minQuality <= interpolate cfg n m <= maxQuality.
Proof.
  intros In Im Hlo Hq Hhi H1 H2. rewrite interpolate_float.
  destruct (qualityFloat_between n m In Im Hlo Hq Hhi H1 H2) as [L U].
  destruct (quality_bounds_int Hlo Hq Hhi) as [Imin Imax].
  apply F64Facts.to_int_between; assumption.
Qed.

(** With such bounds the interpolated quality grows with the requested
    size. *)
Lemma interpolate_mono n1 n2 m :
  GoInt.in_int n1 -> GoInt.in_int n2 -> GoInt.in_int m ->
  - 2 ^ 52 <= minQuality -> minQuality <= maxQuality -> maxQuality <= 2 ^ 52 ->
  300 <= n1 -> n1 <= n2 -> n2 < m ->
  interpolate cfg n1 m <= interpolate cfg n2 m.
Proof.
  intros I1 I2 Im Hlo Hq Hhi H1 H12 H2. rewrite !interpolate_float.
  destruct (qualityFloat_between n2 m I2 Im Hlo Hq Hhi ltac:(lia) H2) as [_ U].
  apply F64Facts.to_int_mono.
  - apply qualityFloat_mono; assumption.
  - apply F64Facts.trunc_mono in U. rewrite F64Facts.trunc_int in U.
    unfold GoInt.maxInt. lia.
Qed.

(** The same holds when the multiplication and the addition are fused. *)
Lemma interpolate_fused_mono n1 n2 m :
  GoInt.in_int n1 -> GoInt.in_int n2 -> GoInt.in_int m ->
  - 2 ^ 52 <= minQuality -> minQuality <= maxQuality -> maxQuality <= 2 ^ 52 ->
  300 <= n1 -> n1 <= n2 -> n2 < m ->
  interpolate_fused cfg n1 m <= interpolate_fused cfg n2 m.
Proof.
  intros I1 I2 Im Hlo Hq Hhi H1 H12 H2. unfold interpolate_fused.
  destruct (interpolation_parts n2 m I2 Im Hlo Hq Hhi ltac:(lia) H2)
    as (Emin & Ed & Hr).
  destruct (interpolate_denominator n2 m Im ltac:(lia) H2) as [_ Hb].
  assert (W1 : GoInt.wrap (n1 - 300) = n1 - 300).
  { apply wrap_id. unfold GoInt.in_int, GoInt.minInt, GoInt.maxInt in *. lia. }
  assert (W2 : GoInt.wrap (n2 - 300) = n2 - 300).
  { apply wrap_id. unfold GoInt.in_int, GoInt.minInt, GoInt.maxInt in *. lia. }
  assert (Ht : (F64.of_int (n1 - 300) <= F64.of_int (n2 - 300))%Q)
    by (apply F64Facts.of_int_mono; lia).
  assert (Hd0 : (0 <= inject_Z (maxQuality - minQuality))%Q).
  { change 0%Q with (inject_Z 0). rewrite <- Zle_Qle. lia. }
  fold minQuality maxQuality.
  apply F64Facts.to_int_mono.
  - apply F64Facts.round_mono, Qplus_le_r.
    apply Qmult_le_compat_r; [| rewrite Ed; exact Hd0].
    rewrite W1, W2. unfold F64.div. apply F64Facts.round_mono.
    unfold Qdiv. apply Qmult_le_compat_r; [exact Ht|].
    apply Qinv_le_0_compat, Qlt_le_weak, Hb.
  - assert (U : (F64.round (F64.of_int minQuality
                   + F64.div (F64.of_int (GoInt.wrap (n2 - 300)))
                             (F64.of_int (GoInt.wrap (m - 300)))
                     * F64.sub (F64.of_int maxQuality) (F64.of_int minQuality))
                 <= inject_Z maxQuality)%Q).
    { apply F64Facts.round_le_int; [lia|]. rewrite Ed, Emin.
      assert (E : (inject_Z maxQuality
                   == inject_Z minQuality + inject_Z (maxQuality - minQuality))%Q).
      { rewrite <- inject_Z_plus. f_equiv. ring. }
      rewrite E. apply Qplus_le_r.
      rewrite <- (Qmult_1_l (inject_Z (maxQuality - minQuality))) at 2.
      apply Qmult_le_compat_r; [apply Hr | exact Hd0]. }
    apply F64Facts.trunc_mono in U. rewrite F64Facts.trunc_int in U.
    unfold GoInt.maxInt. lia.
Qed.
End Quality.

(** ** Lossless suitability detector *)

Lemma byteZ_nonneg b : 0 <= byteZ b.
Proof. unfold byteZ. apply N2Z.is_nonneg. Qed.

Lemma le_uint32_nonneg b : 0 <= le_uint32 b.
Proof.
  destruct b as [| b0 [| b1 [| b2 [| b3 r]]]]; cbn [le_uint32]; try lia.
  pose proof (byteZ_nonneg b0). pose proof (byteZ_nonneg b1).
  pose proof (byteZ_nonneg b2). pose proof (byteZ_nonneg b3).
  rewrite !Z.lor_nonneg, !Z.shiftl_nonneg. tauto.
Qed.

(** The chunk walk always leaves the loop: a turn moves the offset
    forward by at least 8, so [fuel] turns cover [8 * fuel] bytes. *)
Lemma webpScan_total fuel : forall header offset,
  len header - offset < 8 * Z.of_nat (S fuel) ->
  exists isNativeLossless,
    webpScan (S fuel) header offset = Some isNativeLossless.
Proof.
  induction fuel as [| fuel IH]; intros header offset Hf; cbn [webpScan].
  - destruct (Z.leb_spec (offset + 8) (len header)); [lia|].
    exists false. reflexivity.
  - destruct (Z.leb_spec (offset + 8) (len header)) as [Hin | Hout];
      [| exists false; reflexivity].
    destruct (bytes_eqb _ (lit "VP8L")); [exists true; reflexivity|].
    destruct (bytes_eqb _ (lit "VP8 ")); [exists false; reflexivity|].
    pose proof (le_uint32_nonneg (slice header (offset + 4) (offset + 8))) as Hl.
    apply IH.
    destruct (negb _); lia.
Qed.

Lemma webpScan_header header :
  exists isNativeLossless,
    webpScan (S (List.length header)) header 12 = Some isNativeLossless.
Proof. apply webpScan_total. unfold len. lia. Qed.

Lemma bytes_eqb_eq a b : bytes_eqb a b = true <-> a = b.
Proof.
  unfold bytes_eqb. destruct (list_eq_dec Byte.byte_eq_dec a b);
    split; intros; congruence.
Qed.

(** A walk that starts on a ["VP8 "] chunk stops at once: the source is
    not natively lossless. *)
Lemma webpScan_lossy fuel header :
  slice header 12 16 = lit "VP8 " ->
  webpScan (S fuel) header 12 = Some false.
Proof.
  intros H. cbn [webpScan]. change (12 + 4) with 16. rewrite H.
  destruct (12 + 8 <=? len header); reflexivity.
Qed.

(** The float division of [bitsPerPixel] has a non-zero divisor once the
    zero-pixel guard is passed. *)
Lemma bitsPerPixel_divisor bounds :
  totalPixels bounds <> 0 -> ~ (F64.of_int (totalPixels bounds) == 0)%Q.
Proof. apply F64Facts.of_int_nonzero. Qed.

(** C5. [shouldEncodeLossless] is a function of its four arguments such
    that: a JPEG input gives [false], whatever the byte count, the bounds
    and the header; a PNG input with a non-zero pixel count gives [true]
    whenever [bitsPerPixel], the float
    [float64(originalBytes*8) / float64(totalPixels)], is below 8.0; and
    a zero pixel count gives [false] for every format. *)
Theorem shouldEncodeLossless_decision :
  (forall originalBytes bounds header,
      shouldEncodeLossless "jpeg" originalBytes bounds header = false)
  /\ (forall originalBytes bounds header,
         totalPixels bounds <> 0 ->
         F64.ltb (bitsPerPixel originalBytes bounds) 8%Q = true ->
         shouldEncodeLossless "png" originalBytes bounds header = true)
  /\ (forall format originalBytes bounds header,
         totalPixels bounds = 0 ->
         shouldEncodeLossless format originalBytes bounds header = false).
Proof.
  repeat split.
  - intros n b h. unfold shouldEncodeLossless.
    destruct (totalPixels b =? 0); reflexivity.
  - intros n b h Hp Hb. unfold shouldEncodeLossless.
    destruct (Z.eqb_spec (totalPixels b) 0) as [E | _]; [contradiction|].
    cbn [String.eqb Ascii.eqb Bool.eqb andb]. rewrite Hb. reflexivity.
  - intros f n b h Hp. unfold shouldEncodeLossless.
    rewrite Hp. reflexivity.
Qed.

Lemma shouldEncodeLossless_decision_witness :
  shouldEncodeLossless "png" 51200 (Rect 0 0 500 500) [] = true
  /\ shouldEncodeLossless "webp" 51200 (Rect 0 0 500 0) vp8Header = false.
Proof.
  split.
  - apply (proj1 (proj2 shouldEncodeLossless_decision)).
    + vm_compute. discriminate.
    + vm_compute. reflexivity.
  - apply (proj2 (proj2 shouldEncodeLossless_decision)).
    vm_compute. reflexivity.
Defined.

(** C6, as the code has it.  For a header that starts with the 12-byte
    RIFF/WEBP signature and whose first chunk tag is ["VP8 "], a non-zero
    pixel count and format webp, the source is not taken as natively
    lossless, and the answer is the sparse-image rule alone: [true]
    exactly when [bitsPerPixel] is below 3.0, hence [false] from 3.0 on. *)
Theorem shouldEncodeLossless_vp8 originalBytes bounds header :
  isRiffWebp header = true ->
  slice header 12 16 = lit "VP8 " ->
  totalPixels bounds <> 0 ->
  shouldEncodeLossless "webp" originalBytes bounds header
  = F64.ltb (bitsPerPixel originalBytes bounds) 3%Q
  /\ (F64.ltb (bitsPerPixel originalBytes bounds) 3%Q = false ->
      shouldEncodeLossless "webp" originalBytes bounds header = false).
Proof.
  intros Hsig Htag Hp.
  assert (E : shouldEncodeLossless "webp" originalBytes bounds header
              = F64.ltb (bitsPerPixel originalBytes bounds) 3%Q).
  { unfold shouldEncodeLossless.
    destruct (Z.eqb_spec (totalPixels bounds) 0) as [E | _]; [contradiction|].
    cbn [String.eqb Ascii.eqb Bool.eqb andb]. rewrite Hsig.
    rewrite (webpScan_lossy _ _ Htag). cbn [andb].
    destruct (F64.ltb _ _); reflexivity. }
  split; [exact E | intros H; rewrite E; exact H].
Qed.

Lemma shouldEncodeLossless_vp8_witness :
  shouldEncodeLossless "webp" 200000 (Rect 0 0 500 500) vp8Header = false.
Proof.
  apply (proj2 (shouldEncodeLossless_vp8 200000 (Rect 0 0 500 500) vp8Header
                  ltac:(vm_compute; reflexivity)
                  ltac:(vm_compute; reflexivity)
                  ltac:(vm_compute; discriminate))).
  vm_compute. reflexivity.
Defined.

(** C6 fails as stated: a 500x500 lossy WebP of 20000 bytes (0.64 bits
    per pixel) with a ["VP8 "] first chunk is encoded losslessly. *)
Lemma sparse_vp8_is_lossless :
  isRiffWebp vp8Header = true
  /\ slice vp8Header 12 16 = lit "VP8 "
  /\ totalPixels (Rect 0 0 500 500) <> 0
  /\ shouldEncodeLossless "webp" 20000 (Rect 0 0 500 500) vp8Header = true.
Proof.
  repeat split; try (vm_compute; reflexivity). vm_compute. discriminate.
Qed.

(** C7, as the code has it.  For every requested size of at least 300,
    [qualityBySize n n] is the configured maximum quality; below 300 the
    first guard wins and it is the configured minimum quality. *)
Theorem qualityBySize_same_size cfg n :
  (300 <= n -> qualityBySize cfg n n = CoverArtMaxQuality cfg)
  /\ (n < 300 -> qualityBySize cfg n n = CoverArtMinQuality cfg).
Proof.
  split; intros H.
  - apply quality_at_bound; lia.
  - apply quality_below_300; lia.
Qed.

Lemma qualityBySize_same_size_witness :
  qualityBySize webpConfig 300 300 = 90 /\ qualityBySize webpConfig 299 299 = 60.
Proof.
  split.
  - apply (proj1 (qualityBySize_same_size webpConfig 300)). lia.
  - apply (proj2 (qualityBySize_same_size webpConfig 299)). lia.
Defined.

(** C7 fails as stated: with quality bounds 60 and 90, a request of 250
    bounded by 250 gets the minimum quality, not the maximum. *)
Lemma quality_250_250_is_minimum :
  qualityBySize webpConfig 250 250 = 60
  /\ qualityBySize webpConfig 250 250 <> CoverArtMaxQuality webpConfig.
Proof. split; [reflexivity | vm_compute; discriminate]. Qed.

(** C8, as the code has it.  For a fixed effective bound above 300 and
    quality bounds with [min <= max] of magnitude at most [2 ^ 52], the
    quality is monotonic non-decreasing in the requested size over
    [[300, effectiveBound)], where it is the float64 interpolation
    [minQ + (n-300)/(m-300) * (maxQ - minQ)] truncated to an integer. *)
Theorem qualityBySize_monotone cfg n1 n2 m :
  GoInt.in_int n1 -> GoInt.in_int n2 -> GoInt.in_int m ->
  quality_bounds_ok cfg ->
  300 < m -> 300 <= n1 -> n1 <= n2 -> n2 < m ->
  qualityBySize cfg n1 m <= qualityBySize cfg n2 m
  /\ qualityBySize cfg n1 m = interpolate cfg n1 m
  /\ qualityBySize cfg n2 m = interpolate cfg n2 m.
Proof.
  intros I1 I2 Im (Hlo & Hq & Hhi) Hm H1 H12 H2.
  rewrite !quality_interpolated by lia.
  split; [| split; reflexivity].
  apply interpolate_mono; assumption.
Qed.

Lemma qualityBySize_monotone_witness :
  qualityBySize webpConfig 387 600 <= qualityBySize webpConfig 400 600.
Proof.
  apply (qualityBySize_monotone webpConfig 387 400 600);
    try (unfold GoInt.in_int; vm_compute; split; discriminate);
    try (unfold quality_bounds_ok; vm_compute; repeat split; discriminate);
    vm_compute; try reflexivity; discriminate.
Defined.

(** C8 fails as stated: with quality bounds 0 and [2 ^ 63 - 1] and the
    bound [2 ^ 53 + 301], the sizes 300 and [2 ^ 53 + 300] lie in the
    interpolation range; the first gets quality 0; for the second the
    ratio rounds to 1 and [qualityFloat] is [2 ^ 63], which no [int]
    holds, and the conversion answers the smallest [int]. *)
Lemma quality_overflow_not_monotone :
  CoverArtMinQuality hugeQualityConfig <= CoverArtMaxQuality hugeQualityConfig
  /\ GoInt.in_int (2 ^ 53 + 300) /\ GoInt.in_int (2 ^ 53 + 301)
  /\ 300 < 2 ^ 53 + 301 /\ 300 <= 300 /\ 300 <= 2 ^ 53 + 300
  /\ 2 ^ 53 + 300 < 2 ^ 53 + 301
  /\ qualityBySize hugeQualityConfig 300 (2 ^ 53 + 301) = 0
  /\ qualityBySize hugeQualityConfig (2 ^ 53 + 300) (2 ^ 53 + 301) = - 2 ^ 63
  /\ ~ (qualityBySize hugeQualityConfig 300 (2 ^ 53 + 301)
        <= qualityBySize hugeQualityConfig (2 ^ 53 + 300) (2 ^ 53 + 301)).
Proof.
  unfold GoInt.in_int.
  repeat split; try (vm_compute; (reflexivity || discriminate)).
  vm_compute. intros H. apply H. reflexivity.
Qed.

(** C10. [qualityBySize] is total on the integers, and every input takes
    exactly one of three branches, told apart by guards that exclude one
    another: the minimum quality ([n < 300]), the maximum quality
    ([300 <= n] and [m <= n]), the interpolation ([300 <= n < m]).  In the
    interpolation branch [m - 300] is positive and does not wrap, and its
    float, the divisor, is positive: no division by zero. *)
Theorem qualityBySize_total cfg n m :
  GoInt.in_int n -> GoInt.in_int m ->
  (n < 300 /\ qualityBySize cfg n m = CoverArtMinQuality cfg)
  \/ (300 <= n /\ m <= n /\ qualityBySize cfg n m = CoverArtMaxQuality cfg)
  \/ (300 <= n /\ n < m
      /\ qualityBySize cfg n m = interpolate cfg n m
      /\ 0 < m - 300
      /\ GoInt.wrap (m - 300) = m - 300
      /\ (0 < F64.of_int (GoInt.wrap (m - 300)))%Q).
Proof.
  intros In Im.
  destruct (Z_lt_le_dec n 300) as [A | A].
  - left. split; [exact A | apply quality_below_300; exact A].
  - destruct (Z_le_gt_dec m n) as [B | B].
    + right. left. repeat split; try assumption.
      apply quality_at_bound; assumption.
    + right. right.
      destruct (interpolate_denominator n m Im A ltac:(lia)) as [W P].
      repeat split; try assumption; try lia.
      apply quality_interpolated; lia.
Qed.

Lemma qualityBySize_total_witness :
  (400 < 300 /\ qualityBySize webpConfig 400 600 = 60)
  \/ (300 <= 400 /\ 600 <= 400 /\ qualityBySize webpConfig 400 600 = 90)
  \/ (300 <= 400 /\ 400 < 600
      /\ qualityBySize webpConfig 400 600 = interpolate webpConfig 400 600
      /\ 0 < 600 - 300
      /\ GoInt.wrap (600 - 300) = 600 - 300
      /\ (0 < F64.of_int (GoInt.wrap (600 - 300)))%Q).
Proof.
  apply (qualityBySize_total webpConfig 400 600);
    unfold GoInt.in_int; vm_compute; split; discriminate.
Defined.

(** ** Resize/encode pipeline *)

(** For anchored bounds [max(bounds.Max.X, bounds.Max.Y)] is the larger of
    width and height. *)
Lemma originalSizeOf_anchored bounds :
  anchored bounds -> originalSizeOf bounds = Z.max (Dx bounds) (Dy bounds).
Proof.
  intros (Hmin & Hx & Hy). unfold originalSizeOf, Dx, Dy.
  rewrite Hmin. cbn [X Y]. rewrite !Z.sub_0_r, !wrap_id by assumption.
  reflexivity.
Qed.

Section PipelineFacts.
Context {IM : Imaging}.
Variables (cfg : Config) (reader : bytes) (size : Z) (square : bool).
Variables (original : Image) (format : string) (originalBytes : Z).
Hypothesis decoded : Decode reader = inr (original, format, originalBytes).

Let bounds := Bounds original.
Let enc :=
  encoderFor cfg format originalBytes bounds (firstn 512 reader) size.
Let resized := resizedImage original size square.

(** The skip condition. *)
Lemma skip_condition :
  format = CoverArtFormat cfg ->
  originalSizeOf bounds <= size ->
  resizeImage cfg reader size square
  = ([], (None, originalSizeOf bounds, None)).
Proof.
  intros Hf Hs. unfold resizeImage. rewrite decoded.
  rewrite Hf, String.eqb_refl. fold bounds.
  destruct (Z.leb_spec (originalSizeOf bounds) size); [reflexivity | lia].
Qed.

(** Past the skip condition exactly one encoder is called, and the three
    ways out follow the buffer it wrote and the error it reported. *)
Lemma encoder_outcome buf err :
  ~ (format = CoverArtFormat cfg /\ originalSizeOf bounds <= size) ->
  Encode enc resized = (buf, err) ->
  resizeImage cfg reader size square
  = ([(enc, resized)],
     if String.eqb format (CoverArtFormat cfg) && (originalBytes <=? len buf)
     then (None, originalSizeOf bounds, None)
     else (Some buf, originalSizeOf bounds, err)).
Proof.
  intros Hskip He. unfold resizeImage. rewrite decoded. fold bounds.
  destruct (String.eqb_spec format (CoverArtFormat cfg)) as [Ef | Ef];
    destruct (Z.leb_spec (originalSizeOf bounds) size) as [Es | Es];
    cbn [andb]; try (exfalso; apply Hskip; split; assumption);
    fold enc resized; rewrite He;
    destruct (originalBytes <=? len buf); destruct err; reflexivity.
Qed.

(** The encoder calls of an invocation: none, or the one of [enc] on
    [resized]. *)
Lemma encoder_calls :
  fst (resizeImage cfg reader size square) = []
  \/ fst (resizeImage cfg reader size square) = [(enc, resized)].
Proof.
  unfold resizeImage. rewrite decoded. fold bounds.
  destruct (_ && _); [left; reflexivity|].
  fold enc resized. destruct (Encode enc resized) as [buf err].
  destruct (_ && _); [| destruct err]; right; reflexivity.
Qed.
End PipelineFacts.

(** The skip in the measure of the code: when the source decodes, its
    format is the configured output format and
    [max(bounds.Max.X, bounds.Max.Y)] is at most the requested size,
    [resizeImage] returns the nil reader, that measure and no error, and
    calls no encoder (first part); for bounds anchored at the origin the
    measure is [max(width, height)] (second part). *)
Theorem resizeImage_skip {IM : Imaging} cfg reader size square
    original format originalBytes :
  Decode reader = inr (original, format, originalBytes) ->
  format = CoverArtFormat cfg ->
  (originalSizeOf (Bounds original) <= size ->
   resizeImage cfg reader size square
   = ([], (None, originalSizeOf (Bounds original), None)))
  /\ (anchored (Bounds original) ->
      Z.max (Dx (Bounds original)) (Dy (Bounds original)) <= size ->
      resizeImage cfg reader size square
      = ([], (None, Z.max (Dx (Bounds original)) (Dy (Bounds original)), None))).
Proof.
  intros Hd Hf. split.
  - intros Hs. apply (skip_condition _ _ _ _ _ _ _ Hd Hf Hs).
  - intros Ha Hs. rewrite <- (originalSizeOf_anchored _ Ha) in *.
    apply (skip_condition _ _ _ _ _ _ _ Hd Hf Hs).
Qed.

Lemma resizeImage_skip_witness :
  @resizeImage (scriptedImaging smallPng (zeros 60, None))
     pngConfig (zeros 50) 800 false
  = ([], (None, 500, None))
  /\ @resizeImage (scriptedImaging smallPng (zeros 60, None))
       pngConfig (zeros 50) 500 true
     = ([], (None, 500, None)).
Proof.
  split.
  - apply (proj2 (@resizeImage_skip (scriptedImaging smallPng (zeros 60, None))
                    pngConfig (zeros 50) 800 false
                    (Rect 0 0 500 500) "png"%string 50
                    eq_refl eq_refl)).
    + unfold anchored, GoInt.in_int. vm_compute.
      repeat split; discriminate.
    + vm_compute. discriminate.
  - apply (proj1 (@resizeImage_skip (scriptedImaging smallPng (zeros 60, None))
                    pngConfig (zeros 50) 500 true
                    (Rect 0 0 500 500) "png"%string 50
                    eq_refl eq_refl)).
    vm_compute. discriminate.
Defined.


(** C2. When the source decodes in the configured output format and the
    buffer the encoder writes is at least as long as the bytes read while
    decoding, [resizeImage] drops the buffer: it returns the nil reader,
    the original's largest dimension and no error. *)
Theorem resizeImage_regression_guard {IM : Imaging} cfg reader size square
    original format originalBytes buf err :
  Decode reader = inr (original, format, originalBytes) ->
  format = CoverArtFormat cfg ->
  Encode (encoderFor cfg format originalBytes (Bounds original)
                     (firstn 512 reader) size)
         (resizedImage original size square) = (buf, err) ->
  originalBytes <= len buf ->
  snd (resizeImage cfg reader size square)
  = (None, originalSizeOf (Bounds original), None).
Proof.
  intros Hd Hf He Hl.
  destruct (Z_le_gt_dec (originalSizeOf (Bounds original)) size) as [Hs | Hs].
  - rewrite (skip_condition _ _ _ _ _ _ _ Hd Hf Hs). reflexivity.
  - rewrite (encoder_outcome _ _ _ _ _ _ _ Hd buf err); [| lia | exact He].
    rewrite Hf, String.eqb_refl.
    destruct (Z.leb_spec originalBytes (len buf)); [reflexivity | lia].
Qed.

Lemma resizeImage_regression_guard_witness :
  snd (@resizeImage (scriptedImaging smallPng (zeros 60, None))
         pngConfig (zeros 50) 300 false)
  = (None, 500, None).
Proof.
  apply (@resizeImage_regression_guard
           (scriptedImaging smallPng (zeros 60, None))
           pngConfig (zeros 50) 300 false
           (Rect 0 0 500 500) "png"%string 50 (zeros 60) None
           eq_refl eq_refl eq_refl).
  vm_compute. discriminate.
Defined.

(** C3, as the code has it.  When the encoder call of an invocation
    reports an error and the regression guard does not fire (the source
    format is not the configured one, or the buffer is shorter than the
    bytes read while decoding), [resizeImage] returns the buffer written so
    far, the original's largest dimension and that error. *)
Theorem resizeImage_encode_error {IM : Imaging} cfg reader size square
    original format originalBytes enc img buf e :
  Decode reader = inr (original, format, originalBytes) ->
  fst (resizeImage cfg reader size square) = [(enc, img)] ->
  Encode enc img = (buf, Some e) ->
  ~ (format = CoverArtFormat cfg /\ originalBytes <= len buf) ->
  snd (resizeImage cfg reader size square)
  = (Some buf, originalSizeOf (Bounds original), Some e).
Proof.
  intros Hd Hcall He Hguard.
  assert (Hskip : ~ (format = CoverArtFormat cfg
                     /\ originalSizeOf (Bounds original) <= size)).
  { intros [Hf Hs].
    rewrite (skip_condition _ _ _ _ _ _ _ Hd Hf Hs) in Hcall.
    discriminate. }
  destruct (Encode (encoderFor cfg format originalBytes (Bounds original)
                               (firstn 512 reader) size)
                   (resizedImage original size square)) as [buf0 err0] eqn:E0.
  rewrite (encoder_outcome _ _ _ _ _ _ _ Hd buf0 err0 Hskip E0) in *.
  cbn [fst snd] in *.
  remember (firstn 512 reader) as header eqn:Hh.
  remember (resizedImage original size square) as resized eqn:Hr.
  injection Hcall as Henc Himg.
  rewrite <- Henc, <- Himg, E0 in He. injection He as <- ->.
  destruct (String.eqb_spec format (CoverArtFormat cfg)) as [Ef | Ef];
    [| reflexivity].
  destruct (Z.leb_spec originalBytes (len buf0)) as [El | El];
    [| reflexivity].
  exfalso. apply Hguard. split; assumption.
Qed.

Lemma resizeImage_encode_error_witness :
  snd (@resizeImage
         (scriptedImaging smallPng (zeros 40, Some "png: write failed"%string))
         pngConfig (zeros 50) 300 false)
  = (Some (zeros 40), 500, Some "png: write failed"%string).
Proof.
  apply (@resizeImage_encode_error
           (scriptedImaging smallPng (zeros 40, Some "png: write failed"%string))
           pngConfig (zeros 50) 300 false
           (Rect 0 0 500 500) "png"%string 50
           PngEncode (Rect 0 0 300 300) (zeros 40) "png: write failed"%string
           eq_refl).
  - vm_compute. reflexivity.
  - reflexivity.
  - vm_compute. intros [_ H]. apply H. reflexivity.
Defined.

(** C3 fails as stated: a 500x500 PNG of 50 bytes, output format png,
    requested size 300; the PNG encoder fails after writing 60 bytes; the
    regression guard fires first, and the result carries neither the
    buffer nor the error. *)
Lemma encode_error_dropped :
  let IM := scriptedImaging smallPng
              (zeros 60, Some "png: write failed"%string) in
  fst (resizeImage pngConfig (zeros 50) 300 false)
    = [(PngEncode, Rect 0 0 300 300)]
  /\ Encode PngEncode (Rect 0 0 300 300)
       = (zeros 60, Some "png: write failed"%string)
  /\ snd (resizeImage pngConfig (zeros 50) 300 false) = (None, 500, None).
Proof. intros IM. repeat split; vm_compute; reflexivity. Qed.

(** ** Resized artwork reader *)

Lemma append_assoc (a b c : string) : ((a ++ b) ++ c = a ++ (b ++ c))%string.
Proof. induction a as [| ch a IH]; simpl; [reflexivity | rewrite IH; reflexivity]. Qed.

Lemma append_inj_l (a b c : string) : (a ++ b = a ++ c)%string -> b = c.
Proof.
  induction a as [| ch a IH]; simpl; intros H; [exact H|].
  injection H as H. apply IH, H.
Qed.

(** C9. [Key] is exactly ["{cacheKey}.{size}.square"] for a square
    reader and ["{cacheKey}.{size}.{CoverArtFormat}"] otherwise; it is
    determined by the cache key, the size, the square flag and the
    configured format; and when the configured format is one of the
    formats of the encoder dispatch, the square and the non-square key of
    the same cache key and size differ. *)
Theorem Key_format {AS : ArtworkStore} cfg :
  (forall a, square a = true ->
     Key cfg a = (cacheKey a ++ "." ++ itoa (size a) ++ ".square")%string)
  /\ (forall a, square a = false ->
        Key cfg a
        = (cacheKey a ++ "." ++ itoa (size a) ++ "." ++ CoverArtFormat cfg)%string)
  /\ (forall a b, cacheKey a = cacheKey b -> size a = size b ->
        square a = square b -> Key cfg a = Key cfg b)
  /\ (In (CoverArtFormat cfg) coverArtFormats ->
      forall a b, cacheKey a = cacheKey b -> size a = size b ->
        square a = true -> square b = false -> Key cfg a <> Key cfg b).
Proof.
  assert (Sq : forall a, square a = true ->
     Key cfg a = (cacheKey a ++ "." ++ itoa (size a) ++ ".square")%string).
  { intros a H. unfold Key. rewrite H.
    rewrite append_assoc. reflexivity. }
  assert (Ns : forall a, square a = false ->
     Key cfg a
     = (cacheKey a ++ "." ++ itoa (size a) ++ "." ++ CoverArtFormat cfg)%string).
  { intros a H. unfold Key. rewrite H.
    rewrite append_assoc. reflexivity. }
  split; [exact Sq|]. split; [exact Ns|]. split.
  - intros a b Hk Hs Hq. unfold Key. rewrite Hk, Hs, Hq. reflexivity.
  - intros Hin a b Hk Hs Ha Hb E.
    rewrite (Sq a Ha), (Ns b Hb), Hk, Hs in E.
    apply append_inj_l in E. cbn [append] in E. injection E as E.
    apply append_inj_l in E. cbn [append] in E. injection E as E.
    rewrite <- E in Hin. cbn in Hin.
    repeat (destruct Hin as [Hin | Hin]; [discriminate|]). exact Hin.
Qed.

Lemma Key_format_witness :
  @Key scriptedStore webpConfig (album300 true)
  <> @Key scriptedStore webpConfig (album300 false)
  /\ @Key scriptedStore webpConfig (album300 true) = "al-1.0.300.square"%string
  /\ @Key scriptedStore webpConfig (album300 false) = "al-1.0.300.webp"%string
  /\ @Key scriptedStore webpConfig (album300 false)
     = @Key scriptedStore webpConfig (album300' false).
Proof.
  split; [| split; [| split]].
  - apply (proj2 (proj2 (proj2 (@Key_format scriptedStore webpConfig))));
      try reflexivity.
    cbn. tauto.
  - apply (proj1 (@Key_format scriptedStore webpConfig)). reflexivity.
  - apply (proj1 (proj2 (@Key_format scriptedStore webpConfig))). reflexivity.
  - apply (proj1 (proj2 (proj2 (@Key_format scriptedStore webpConfig))));
      reflexivity.
Defined.

Section FacadeFacts.
Context {IM : Imaging} {AS : ArtworkStore}.
Variables (cfg : Config) (a : resizedArtworkReader) (s : Store).

(** [Reader] when the first lookup fails. *)
Lemma lookup_failed err s1 :
  Get (artID a) 0 false s = (inl err, s1) ->
  Reader cfg a s = ((None, EmptyString, Some err), s1).
Proof. intros H. unfold Reader. rewrite H. reflexivity. Qed.

(** [Reader] when the pipeline produced a buffer and no error. *)
Lemma pipeline_succeeded orig s1 buf origSize :
  Get (artID a) 0 false s = (inr orig, s1) ->
  snd (resizeImage cfg orig (size a) (square a)) = (Some buf, origSize, None) ->
  Reader cfg a s
  = ((Some buf, (artIDString (artID a) ++ "@" ++ itoa (size a))%string, None),
     s1).
Proof. intros H R. unfold Reader. rewrite H, R. reflexivity. Qed.

(** [Reader] when the pipeline failed or signalled the no-op. *)
Lemma pipeline_fell_back orig s1 resized origSize err :
  Get (artID a) 0 false s = (inr orig, s1) ->
  snd (resizeImage cfg orig (size a) (square a)) = (resized, origSize, err) ->
  err <> None \/ resized = None ->
  Reader cfg a s
  = (asOriginal (fst (Get (artID a) 0 false s1)),
     snd (Get (artID a) 0 false s1)).
Proof.
  intros H R C. unfold Reader. rewrite H, R.
  destruct (Get (artID a) 0 false s1) as [r2 s2].
  destruct err as [e |]; [reflexivity|].
  destruct resized as [buf |]; [| reflexivity].
  destruct C as [C | C]; [contradiction | discriminate].
Qed.
End FacadeFacts.

(** C4. When the first lookup succeeds and the pipeline returns an error
    or the nil reader, [Reader] looks the original up again and returns
    what that lookup gives: its bytes as they are, with no error, or its
    error.  And whenever [Reader] returns an error, it is the error of a
    lookup of the original, the first one or the second: an error of the
    pipeline alone never fails the call. *)
Theorem Reader_fallback {IM : Imaging} {AS : ArtworkStore} cfg a s :
  (forall orig s1 resized origSize err,
      Get (artID a) 0 false s = (inr orig, s1) ->
      snd (resizeImage cfg orig (size a) (square a)) = (resized, origSize, err) ->
      err <> None \/ resized = None ->
      Reader cfg a s
      = (asOriginal (fst (Get (artID a) 0 false s1)),
         snd (Get (artID a) 0 false s1))
      /\ (forall bytes2, fst (Get (artID a) 0 false s1) = inr bytes2 ->
            fst (Reader cfg a s) = (Some bytes2, EmptyString, None)))
  /\ (forall stream tag e s',
         Reader cfg a s = ((stream, tag, Some e), s') ->
         (exists s1, Get (artID a) 0 false s = (inl e, s1))
         \/ (exists orig s1 s2,
               Get (artID a) 0 false s = (inr orig, s1)
               /\ Get (artID a) 0 false s1 = (inl e, s2))).
Proof.
  split.
  - intros orig s1 resized origSize err H R C.
    pose proof (pipeline_fell_back cfg a s orig s1 resized origSize err H R C) as E.
    split; [exact E|].
    intros bytes2 H2. rewrite E. cbn [fst]. rewrite H2. reflexivity.
  - intros stream tag e s' H.
    destruct (Get (artID a) 0 false s) as [[err | orig] s1] eqn:G.
    + left. exists s1.
      rewrite (lookup_failed cfg a s err s1 G) in H.
      injection H as _ _ -> _. reflexivity.
    + right.
      destruct (snd (resizeImage cfg orig (size a) (square a)))
        as [[resized origSize] err] eqn:R.
      destruct err as [pe |].
      * rewrite (pipeline_fell_back cfg a s orig s1 resized origSize (Some pe) G R)
          in H by (left; discriminate).
        destruct (Get (artID a) 0 false s1) as [[e2 | b2] s2] eqn:G2;
          cbn in H; [| discriminate].
        injection H as _ _ -> _. exists orig, s1, s2. split; [reflexivity | exact G2].
      * destruct resized as [buf |].
        -- rewrite (pipeline_succeeded cfg a s orig s1 buf origSize G R) in H.
           discriminate.
        -- rewrite (pipeline_fell_back cfg a s orig s1 None origSize None G R)
             in H by (right; reflexivity).
           destruct (Get (artID a) 0 false s1) as [[e2 | b2] s2] eqn:G2;
             cbn in H; [| discriminate].
           injection H as _ _ -> _. exists orig, s1, s2. split; [reflexivity | exact G2].
Qed.

Lemma Reader_fallback_witness :
  fst (@Reader noDecoder scriptedStore webpConfig (album300 false)
         [inr (zeros 50); inr (zeros 50)])
  = (Some (zeros 50), EmptyString, None)
  /\ ((exists s1, @Get scriptedStore "al-1"%string 0 false
                    [inr (zeros 50); inl "artwork gone"%string]
                  = (inl "artwork gone"%string, s1))
      \/ (exists orig s1 s2,
            @Get scriptedStore "al-1"%string 0 false
                 [inr (zeros 50); inl "artwork gone"%string]
            = (inr orig, s1)
            /\ @Get scriptedStore "al-1"%string 0 false s1
               = (inl "artwork gone"%string, s2))).
Proof.
  split.
  - destruct (proj1 (@Reader_fallback noDecoder scriptedStore webpConfig
                       (album300 false) [inr (zeros 50); inr (zeros 50)])
                    (zeros 50) [inr (zeros 50)] None 0
                    (Some "image: unknown format"%string)
                    eq_refl eq_refl
                    (or_introl (fun H =>
                       eq_ind (Some "image: unknown format"%string)
                         (fun o => match o with Some _ => True | None => False end)
                         I None H)))
      as [_ H].
    apply (H (zeros 50)). reflexivity.
  - apply (proj2 (@Reader_fallback noDecoder scriptedStore webpConfig
                    (album300 false)
                    [inr (zeros 50); inl "artwork gone"%string])
                 None EmptyString "artwork gone"%string []).
    vm_compute. reflexivity.
Defined.

(** ** Scenarios *)

(** A 4000x3000 JPEG of 2 MB, output format webp, size 300: the image is
    fitted into 300x300, the quality is [qualityBySize 300 300], the
    maximum, the encoder is the lossy WebP one, and the buffer comes back
    with the original size 4000. *)
Example scenario_large_jpeg :
  @resizeImage (scriptedImaging largeJpeg (zeros 100, None))
     webpConfig (zeros 512) 300 false
  = ([(WebpEncode 90 false, Rect 0 0 300 225)],
     (Some (zeros 100), 4000, None)).
Proof. vm_compute. reflexivity. Qed.

(** The same source padded to a square: the encoder gets the 300x300
    canvas. *)
Example scenario_large_jpeg_square :
  fst (@resizeImage (scriptedImaging largeJpeg (zeros 100, None))
         webpConfig (zeros 512) 300 true)
  = [(WebpEncode 90 false, Rect 0 0 300 300)].
Proof. vm_compute. reflexivity. Qed.

(** A decode failure reaches the caller of [resizeImage] as
    [(nil, 0, err)], and [Reader] answers with the original. *)
Example scenario_decode_failure :
  @resizeImage noDecoder webpConfig (zeros 50) 300 false
  = ([], (None, 0, Some "image: unknown format"%string))
  /\ @Reader noDecoder scriptedStore webpConfig (album300 false)
       [inr (zeros 50); inr (zeros 50)]
     = ((Some (zeros 50), EmptyString, None), []).
Proof. split; vm_compute; reflexivity. Qed.

(** A successful resize is answered with the buffer and the
    discriminator ["{artID}@{size}"]. *)
Example scenario_resized :
  @Reader (scriptedImaging largeJpeg (zeros 100, None)) scriptedStore
     webpConfig (album300 false) [inr (zeros 512); inr (zeros 512)]
  = ((Some (zeros 100), "al-1@300"%string, None), [inr (zeros 512)]).
Proof. vm_compute. reflexivity. Qed.

(** The interpolation is done in floating point: with bounds 0 and 100,
    29/100 of the way gives 28, not 29. *)
Example scenario_interpolation :
  qualityBySize (mkConfig "webp" 0 100) 329 400 = 28
  /\ qualityBySize webpConfig 400 600 = 70
  /\ qualityBySize webpConfig 250 600 = 60
  /\ qualityBySize webpConfig 600 600 = 90.
Proof. repeat split; vm_compute; reflexivity. Qed.

(* ================================================================== *)
(** * Part III: further properties of the source *)
(* ================================================================== *)

(** ** Adaptive quality estimator *)

(** The quality grows with the interpolation ratio. *)
Lemma quality_of_ratio_mono cfg (r1 r2 : F64.t) :
  CoverArtMinQuality cfg <= CoverArtMaxQuality cfg ->
  (r1 <= r2)%Q ->
  (F64.add (F64.of_int (CoverArtMinQuality cfg))
     (F64.mul r1 (F64.sub (F64.of_int (CoverArtMaxQuality cfg))
                          (F64.of_int (CoverArtMinQuality cfg))))
   <= F64.add (F64.of_int (CoverArtMinQuality cfg))
        (F64.mul r2 (F64.sub (F64.of_int (CoverArtMaxQuality cfg))
                             (F64.of_int (CoverArtMinQuality cfg)))))%Q.
Proof.
  intros Hq Hr.
  assert (Hd : (0 <= F64.sub (F64.of_int (CoverArtMaxQuality cfg))
                             (F64.of_int (CoverArtMinQuality cfg)))%Q).
  { apply F64Facts.round_nonneg.
    pose proof (F64Facts.of_int_mono _ _ Hq). lra. }
  unfold F64.add.
  apply F64Facts.round_mono, Qplus_le_r.
  unfold F64.mul. apply F64Facts.round_mono.
  apply Qmult_le_compat_r; assumption.
Qed.

Lemma quality_between cfg n m :
  GoInt.in_int n -> GoInt.in_int m -> quality_bounds_ok cfg ->
  CoverArtMinQuality cfg <= qualityBySize cfg n m <= CoverArtMaxQuality cfg.
Proof.
  intros In Im (Hlo & Hq & Hhi).
  destruct (Z_lt_le_dec n 300) as [A | A].
  - rewrite quality_below_300 by exact A. lia.
  - destruct (Z_le_gt_dec m n) as [B | B].
    + rewrite quality_at_bound by assumption. lia.
    + rewrite quality_interpolated by lia.
      apply interpolate_between; (assumption || lia).
Qed.

(** X1. The quality is always between the configured bounds. *)
Theorem qualityBySize_between cfg n m :
  GoInt.in_int n -> GoInt.in_int m -> quality_bounds_ok cfg ->
  CoverArtMinQuality cfg <= qualityBySize cfg n m <= CoverArtMaxQuality cfg.
Proof. apply quality_between. Qed.

Lemma qualityBySize_between_witness :
  60 <= qualityBySize webpConfig 400 600 <= 90.
Proof.
  apply (qualityBySize_between webpConfig 400 600);
    unfold GoInt.in_int, quality_bounds_ok; vm_compute;
    repeat split; discriminate.
Defined.

(** X2. For a fixed bound the quality never decreases when the requested
    size grows, over all sizes: below 300, in the interpolation range and
    from the bound on. *)
Theorem qualityBySize_mono_size cfg n1 n2 m :
  GoInt.in_int n1 -> GoInt.in_int n2 -> GoInt.in_int m ->
  quality_bounds_ok cfg ->
  n1 <= n2 ->
  qualityBySize cfg n1 m <= qualityBySize cfg n2 m.
Proof.
  intros I1 I2 Im Hok H12.
  pose proof (quality_between cfg n1 m I1 Im Hok) as B1.
  pose proof (quality_between cfg n2 m I2 Im Hok) as B2.
  destruct Hok as (Hlo & Hq & Hhi).
  destruct (Z_lt_le_dec n1 300) as [A | A].
  - rewrite (quality_below_300 cfg n1 m A). lia.
  - destruct (Z_le_gt_dec m n2) as [B | B].
    + rewrite (quality_at_bound cfg n2 m) by lia. lia.
    + rewrite !quality_interpolated by lia.
      apply interpolate_mono; (assumption || lia).
Qed.

Lemma qualityBySize_mono_size_witness :
  qualityBySize webpConfig 250 600 <= qualityBySize webpConfig 700 600.
Proof.
  apply (qualityBySize_mono_size webpConfig 250 700 600);
    unfold GoInt.in_int, quality_bounds_ok; vm_compute;
    repeat split; discriminate.
Defined.

(** X3. For a fixed requested size the quality never increases when the
    bound grows: the further the request is below the bound, the lower
    the quality. *)
Theorem qualityBySize_anti_bound cfg n m1 m2 :
  GoInt.in_int n -> GoInt.in_int m1 -> GoInt.in_int m2 ->
  quality_bounds_ok cfg ->
  m1 <= m2 ->
  qualityBySize cfg n m2 <= qualityBySize cfg n m1.
Proof.
  intros In I1 I2 Hok H12.
  pose proof (quality_between cfg n m1 In I1 Hok) as B1.
  pose proof (quality_between cfg n m2 In I2 Hok) as B2.
  destruct Hok as (Hlo & Hq & Hhi).
  destruct (Z_lt_le_dec n 300) as [A | A].
  - rewrite !quality_below_300 by exact A. lia.
  - destruct (Z_le_gt_dec m1 n) as [B | B].
    + rewrite (quality_at_bound cfg n m1) by lia. lia.
    + rewrite !quality_interpolated by lia. rewrite !interpolate_float.
      destruct (qualityFloat_between cfg n m1 In I1 Hlo Hq Hhi A ltac:(lia))
        as [_ U].
      apply F64Facts.trunc_mono in U. rewrite F64Facts.trunc_int in U.
      apply F64Facts.to_int_mono; [| unfold GoInt.maxInt; lia].
      unfold qualityFloat.
      destruct (interpolate_denominator n m1 I1 A ltac:(lia)) as [W1 P1].
      destruct (interpolate_denominator n m2 I2 A ltac:(lia)) as [W2 P2].
      assert (Wn : GoInt.wrap (n - 300) = n - 300).
      { apply wrap_id. unfold GoInt.in_int, GoInt.minInt, GoInt.maxInt in *. lia. }
      rewrite Wn, W1, W2 in *.
      apply quality_of_ratio_mono; [exact Hq|].
      unfold F64.div. apply F64Facts.round_mono.
      assert (Ht : (0 <= F64.of_int (n - 300))%Q).
      { apply F64Facts.round_nonneg.
        change 0%Q with (inject_Z 0). rewrite <- Zle_Qle. lia. }
      assert (Hb : (F64.of_int (m1 - 300) <= F64.of_int (m2 - 300))%Q)
        by (apply F64Facts.of_int_mono; lia).
      apply Qle_shift_div_l; [exact P1|].
      setoid_replace (F64.of_int (n - 300) / F64.of_int (m2 - 300)
                      * F64.of_int (m1 - 300))%Q
        with (F64.of_int (m1 - 300) / F64.of_int (m2 - 300)
              * F64.of_int (n - 300))%Q
        by (field; lra).
      apply Qle_trans with (1 * F64.of_int (n - 300))%Q; [| lra].
      apply Qmult_le_compat_r; [| exact Ht].
      apply Qle_shift_div_r; [exact P2 | lra].
Qed.

Lemma qualityBySize_anti_bound_witness :
  qualityBySize webpConfig 400 800 <= qualityBySize webpConfig 400 600.
Proof.
  apply (qualityBySize_anti_bound webpConfig 400 600 800);
    unfold GoInt.in_int, quality_bounds_ok; vm_compute;
    repeat split; discriminate.
Defined.

(** X4. The interpolation starts at the minimum: a request of exactly 300
    below the bound gets the configured minimum quality, so the quality
    does not jump at 300. *)
Theorem qualityBySize_at_300 cfg m :
  GoInt.in_int m -> 300 < m ->
  - 2 ^ 53 <= CoverArtMinQuality cfg <= 2 ^ 53 ->
  qualityBySize cfg 300 m = CoverArtMinQuality cfg.
Proof.
  intros Im Hm Hmin.
  rewrite quality_interpolated by lia. unfold interpolate.
  change (GoInt.wrap (300 - 300)) with 0.
  change (F64.of_int 0) with 0%Q.
  assert (Er : (F64.div 0 (F64.of_int (GoInt.wrap (m - 300))) == 0)%Q).
  { unfold F64.div.
    setoid_replace (0 / F64.of_int (GoInt.wrap (m - 300)))%Q with 0%Q
      by (unfold Qdiv; ring).
    reflexivity. }
  assert (Ep : (F64.mul (F64.div 0 (F64.of_int (GoInt.wrap (m - 300))))
                  (F64.sub (F64.of_int (CoverArtMaxQuality cfg))
                           (F64.of_int (CoverArtMinQuality cfg))) == 0)%Q).
  { unfold F64.mul. rewrite Er.
    setoid_replace (0 * F64.sub (F64.of_int (CoverArtMaxQuality cfg))
                                (F64.of_int (CoverArtMinQuality cfg)))%Q
      with 0%Q by ring.
    reflexivity. }
  assert (Es : (F64.add (F64.of_int (CoverArtMinQuality cfg))
                  (F64.mul (F64.div 0 (F64.of_int (GoInt.wrap (m - 300))))
                     (F64.sub (F64.of_int (CoverArtMaxQuality cfg))
                              (F64.of_int (CoverArtMinQuality cfg))))
                == inject_Z (CoverArtMinQuality cfg))%Q).
  { unfold F64.add. rewrite Ep.
    unfold F64.of_int. rewrite (F64Facts.round_int _ Hmin).
    rewrite Qplus_0_r. apply F64Facts.round_int, Hmin. }
  rewrite Es. apply F64Facts.to_int_int.
  unfold GoInt.in_int, GoInt.minInt, GoInt.maxInt. lia.
Qed.

Lemma qualityBySize_at_300_witness : qualityBySize webpConfig 300 600 = 60.
Proof.
  apply (qualityBySize_at_300 webpConfig 600);
    unfold GoInt.in_int; vm_compute; try reflexivity; split; discriminate.
Defined.

(** ** Resize/encode pipeline *)


(** ** Lossless suitability detector *)

Lemma round_below_3 :
  (F64.round (3 - (1 # 1125899906842624)) == 3 - (1 # 1125899906842624))%Q.
Proof. vm_compute. reflexivity. Qed.

Lemma round_below_8 :
  (F64.round (8 - (1 # 1125899906842624)) == 8 - (1 # 1125899906842624))%Q.
Proof. vm_compute. reflexivity. Qed.

(** For integers in the exact range of float64 the comparison of the
    rounded quotient with 3.0 or 8.0 is the comparison of the integers:
    the quotient of [a < k * b] stays at least [2 ^ -50] below [k]. *)
Lemma ltb_div_int (k : Z) a b :
  k = 3 \/ k = 8 ->
  0 <= a <= 2 ^ 53 -> 0 < b <= 2 ^ 50 ->
  F64.ltb (F64.div (F64.of_int a) (F64.of_int b)) (inject_Z k)
  = (a <? k * b).
Proof.
  intros Hk Ha Hb.
  assert (Ea : (F64.of_int a == inject_Z a)%Q) by (apply F64Facts.round_int; lia).
  assert (Eb : (F64.of_int b == inject_Z b)%Q) by (apply F64Facts.round_int; lia).
  assert (Hy : (0 < inject_Z b)%Q)
    by (change 0%Q with (inject_Z 0); rewrite <- Zlt_Qlt; lia).
  assert (Hy2 : (inject_Z b <= inject_Z (2 ^ 50))%Q) by (rewrite <- Zle_Qle; lia).
  assert (Ed : (F64.div (F64.of_int a) (F64.of_int b)
                == F64.round (inject_Z a / inject_Z b))%Q).
  { unfold F64.div. rewrite Ea, Eb. reflexivity. }
  unfold F64.ltb. rewrite Ed.
  destruct (Z.ltb_spec a (k * b)) as [Hlt | Hge].
  - assert (Hx : (inject_Z a <= inject_Z k * inject_Z b - 1)%Q).
    { rewrite <- inject_Z_mult. change 1%Q with (inject_Z 1).
      unfold Qminus. rewrite <- inject_Z_opp, <- inject_Z_plus, <- Zle_Qle. lia. }
    assert (Hq : (inject_Z a / inject_Z b
                  <= inject_Z k - (1 # 1125899906842624))%Q).
    { apply Qle_shift_div_r; [exact Hy|].
      change (inject_Z (2 ^ 50)) with (1125899906842624 # 1)%Q in Hy2.
      destruct Hk as [-> | ->]; change (inject_Z 3) with 3%Q in *;
        change (inject_Z 8) with 8%Q in *; lra. }
    apply F64Facts.round_mono in Hq.
    assert (Hr : (F64.round (inject_Z a / inject_Z b) < inject_Z k)%Q).
    { destruct Hk as [-> | ->].
      - rewrite round_below_3 in Hq. change (inject_Z 3) with 3%Q in *. lra.
      - rewrite round_below_8 in Hq. change (inject_Z 8) with 8%Q in *. lra. }
    destruct (Qle_bool _ _) eqn:E; [| reflexivity].
    apply Qle_bool_iff in E. exfalso. lra.
  - assert (Hq : (inject_Z k <= inject_Z a / inject_Z b)%Q).
    { apply Qle_shift_div_l; [exact Hy|].
      rewrite <- inject_Z_mult, <- Zle_Qle. lia. }
    apply F64Facts.round_mono in Hq.
    rewrite (F64Facts.round_int k) in Hq by (destruct Hk; subst; lia).
    apply Qle_bool_iff in Hq. rewrite Hq. reflexivity.
Qed.

Lemma lossless_integers format originalBytes bounds header :
  0 < totalPixels bounds <= 2 ^ 50 ->
  0 <= originalBytes <= 2 ^ 50 ->
  shouldEncodeLossless format originalBytes bounds header
  = negb (String.eqb format "jpeg")
    && (if isNativeLossless format header
        then originalBytes <? totalPixels bounds
        else 8 * originalBytes <? 3 * totalPixels bounds).
Proof.
  intros Hp Hb.
  assert (W : GoInt.wrap (originalBytes * 8) = originalBytes * 8).
  { apply wrap_id. unfold GoInt.in_int, GoInt.minInt, GoInt.maxInt. lia. }
  assert (E8 : F64.ltb (bitsPerPixel originalBytes bounds) 8%Q
               = (originalBytes <? totalPixels bounds)).
  { unfold bitsPerPixel. rewrite W.
    change 8%Q with (inject_Z 8). rewrite (ltb_div_int 8) by lia.
    destruct (Z.ltb_spec (originalBytes * 8) (8 * totalPixels bounds));
      destruct (Z.ltb_spec originalBytes (totalPixels bounds)); lia || reflexivity. }
  assert (E3 : F64.ltb (bitsPerPixel originalBytes bounds) 3%Q
               = (8 * originalBytes <? 3 * totalPixels bounds)).
  { unfold bitsPerPixel. rewrite W.
    change 3%Q with (inject_Z 3). rewrite (ltb_div_int 3) by lia.
    rewrite (Z.mul_comm originalBytes 8). reflexivity. }
  assert (D : forall native : bool,
     (if native && F64.ltb (bitsPerPixel originalBytes bounds) 8%Q then true
      else if F64.ltb (bitsPerPixel originalBytes bounds) 3%Q then true
      else false)
     = if native then originalBytes <? totalPixels bounds
       else 8 * originalBytes <? 3 * totalPixels bounds).
  { intros native. rewrite E8, E3. destruct native; cbn [andb].
    - destruct (Z.ltb_spec originalBytes (totalPixels bounds)); [reflexivity|].
      destruct (Z.ltb_spec (8 * originalBytes) (3 * totalPixels bounds));
        [lia | reflexivity].
    - destruct (8 * originalBytes <? 3 * totalPixels bounds); reflexivity. }
  unfold shouldEncodeLossless, isNativeLossless.
  destruct (Z.eqb_spec (totalPixels bounds) 0) as [Z0 | _]; [lia|].
  destruct (String.eqb_spec format "png") as [-> | Npng].
  - rewrite D. reflexivity.
  - destruct (String.eqb_spec format "jpeg") as [-> | Njpeg]; [reflexivity|].
    cbn [negb andb].
    destruct (String.eqb format "webp" && isRiffWebp header).
    + destruct (webpScan _ header 12) as [b |]; [apply D | apply (D false)].
    + apply (D false).
Qed.

(** X6. For sources of up to [2 ^ 50] bytes and pixels the float
    comparisons of [shouldEncodeLossless] are exact integer comparisons:
    a JPEG is never lossless; a natively lossless source (a PNG, or a WebP
    whose chunk walk finds VP8L) is lossless exactly when it has fewer
    bytes than pixels (below 8 bits per pixel); any other source exactly
    when [8 * originalBytes < 3 * totalPixels] (below 3 bits per pixel). *)
Theorem shouldEncodeLossless_integers format originalBytes bounds header :
  0 < totalPixels bounds <= 2 ^ 50 ->
  0 <= originalBytes <= 2 ^ 50 ->
  shouldEncodeLossless format originalBytes bounds header
  = negb (String.eqb format "jpeg")
    && (if isNativeLossless format header
        then originalBytes <? totalPixels bounds
        else 8 * originalBytes <? 3 * totalPixels bounds).
Proof. apply lossless_integers. Qed.

Lemma shouldEncodeLossless_integers_witness :
  shouldEncodeLossless "webp" 20000 (Rect 0 0 500 500) vp8Header
  = negb (String.eqb "webp" "jpeg")
    && (if isNativeLossless "webp" vp8Header
        then 20000 <? totalPixels (Rect 0 0 500 500)
        else 8 * 20000 <? 3 * totalPixels (Rect 0 0 500 500)).
Proof.
  apply (shouldEncodeLossless_integers "webp" 20000 (Rect 0 0 500 500) vp8Header);
    vm_compute; split; (reflexivity || discriminate).
Defined.

(** The chunk walk answers "lossless" only on a VP8L chunk header. *)
Lemma webpScan_sound fuel : forall header offset,
  webpScan fuel header offset = Some true ->
  hasChunk header offset (lit "VP8L").
Proof.
  induction fuel as [| fuel IH]; intros header offset H; [discriminate|].
  cbn [webpScan] in H.
  destruct (Z.leb_spec (offset + 8) (len header)) as [Hin | Hout];
    [| discriminate].
  destruct (bytes_eqb _ (lit "VP8L")) eqn:EL.
  - apply bytes_eqb_eq in EL. exists offset. repeat split; (lia || assumption).
  - destruct (bytes_eqb _ (lit "VP8 ")); [discriminate|].
    pose proof (le_uint32_nonneg (slice header (offset + 4) (offset + 8))) as Hl.
    apply IH in H. destruct H as (o & Ho & Hlen & Htag).
    exists o. repeat split; try assumption.
    destruct (negb _); lia.
Qed.

(** X7. A WebP source of at least 3 bits per pixel is encoded losslessly
    only if its header carries the RIFF/WEBP signature and a VP8L chunk
    header after it, and the source has fewer bytes than pixels. *)
Theorem webp_lossless_needs_vp8l originalBytes bounds header :
  0 < totalPixels bounds <= 2 ^ 50 ->
  0 <= originalBytes <= 2 ^ 50 ->
  3 * totalPixels bounds <= 8 * originalBytes ->
  shouldEncodeLossless "webp" originalBytes bounds header = true ->
  isRiffWebp header = true
  /\ hasChunk header 12 (lit "VP8L")
  /\ originalBytes < totalPixels bounds.
Proof.
  intros Hp Hb H3 H.
  rewrite (lossless_integers _ _ _ _ Hp Hb) in H.
  cbn [String.eqb Ascii.eqb Bool.eqb negb andb] in H.
  unfold isNativeLossless in H.
  cbn [String.eqb Ascii.eqb Bool.eqb andb] in H.
  destruct (isRiffWebp header); cbn [andb] in H.
  - destruct (webpScan _ header 12) as [[|] |] eqn:S.
    + apply webpScan_sound in S. apply Z.ltb_lt in H. repeat split; assumption.
    + apply Z.ltb_lt in H. lia.
    + apply Z.ltb_lt in H. lia.
  - apply Z.ltb_lt in H. lia.
Qed.

Lemma webp_lossless_needs_vp8l_witness :
  isRiffWebp vp8xHeader = true
  /\ hasChunk vp8xHeader 12 (lit "VP8L")
  /\ 200000 < totalPixels (Rect 0 0 500 500).
Proof.
  apply (webp_lossless_needs_vp8l 200000 (Rect 0 0 500 500) vp8xHeader).
  - vm_compute. split; [reflexivity | discriminate].
  - vm_compute. split; discriminate.
  - vm_compute. discriminate.
  - vm_compute. reflexivity.
Defined.

(** ** Resize/encode pipeline *)

(** X8. [resizeImage] returns an error without a reader exactly when the
    source does not decode; the error is the decoder's and the size is 0.
    Every other failure comes with the encoder's buffer. *)
Theorem resizeImage_nil_error {IM : Imaging} cfg reader size square sz e :
  snd (resizeImage cfg reader size square) = (None, sz, Some e)
  <-> Decode reader = inl e /\ sz = 0.
Proof.
  split.
  - intros H. unfold resizeImage in H.
    destruct (Decode reader) as [err | [[original format] originalBytes]].
    + cbn in H. injection H as <- <-. split; reflexivity.
    + destruct (_ && _); [discriminate|].
      destruct (Encode _ _) as [buf err].
      destruct (_ && _); [discriminate|].
      destruct err; discriminate.
  - intros [H ->]. unfold resizeImage. rewrite H. reflexivity.
Qed.

Lemma buffer_origin {IM : Imaging} cfg reader size square buf sz err :
  snd (resizeImage cfg reader size square) = (Some buf, sz, err) ->
  exists original format originalBytes,
    Decode reader = inr (original, format, originalBytes)
    /\ sz = originalSizeOf (Bounds original)
    /\ fst (resizeImage cfg reader size square)
       = [(encoderFor cfg format originalBytes (Bounds original)
                      (firstn 512 reader) size,
           resizedImage original size square)]
    /\ Encode (encoderFor cfg format originalBytes (Bounds original)
                          (firstn 512 reader) size)
              (resizedImage original size square) = (buf, err)
    /\ (format = CoverArtFormat cfg ->
        len buf < originalBytes /\ size < originalSizeOf (Bounds original)).
Proof.
  intros H.
  destruct (Decode reader) as [e | [[original format] originalBytes]] eqn:Hd.
  { unfold resizeImage in H. rewrite Hd in H. discriminate. }
  exists original, format, originalBytes.
  destruct (Encode (encoderFor cfg format originalBytes (Bounds original)
                               (firstn 512 reader) size)
                   (resizedImage original size square)) as [buf0 err0] eqn:E0.
  assert (Hskip : ~ (format = CoverArtFormat cfg
                     /\ originalSizeOf (Bounds original) <= size)).
  { intros [Hf Hs].
    rewrite (skip_condition _ _ _ _ _ _ _ Hd Hf Hs) in H. discriminate. }
  rewrite (encoder_outcome _ _ _ _ _ _ _ Hd buf0 err0 Hskip E0) in *.
  cbn [fst snd] in *.
  destruct (String.eqb_spec format (CoverArtFormat cfg)) as [Ef | Ef];
    destruct (Z.leb_spec originalBytes (len buf0)) as [El | El];
    cbn [andb] in H; try discriminate;
    injection H as <- <- <-; repeat split; try reflexivity;
    try (intros; contradiction); try lia.
  destruct (Z_le_gt_dec (originalSizeOf (Bounds original)) size); [| lia].
  exfalso. apply Hskip. split; assumption.
Qed.

(** X9. When [resizeImage] returns a buffer, the source decoded, exactly
    one encoder was called and the buffer and the error are what that
    call gave, and the size returned is the original's.  If moreover the
    source is in the configured output format, the buffer is strictly
    shorter than the bytes read while decoding and the original is
    strictly larger than the requested size. *)
Theorem resizeImage_buffer {IM : Imaging} cfg reader size square buf sz err :
  snd (resizeImage cfg reader size square) = (Some buf, sz, err) ->
  exists original format originalBytes,
    Decode reader = inr (original, format, originalBytes)
    /\ sz = originalSizeOf (Bounds original)
    /\ fst (resizeImage cfg reader size square)
       = [(encoderFor cfg format originalBytes (Bounds original)
                      (firstn 512 reader) size,
           resizedImage original size square)]
    /\ Encode (encoderFor cfg format originalBytes (Bounds original)
                          (firstn 512 reader) size)
              (resizedImage original size square) = (buf, err)
    /\ (format = CoverArtFormat cfg ->
        len buf < originalBytes /\ size < originalSizeOf (Bounds original)).
Proof. apply buffer_origin. Qed.

Lemma resizeImage_buffer_witness :
  exists original format originalBytes,
    @Decode (scriptedImaging smallPng (zeros 40, None)) (zeros 50)
      = inr (original, format, originalBytes)
    /\ 500 = originalSizeOf (@Bounds (scriptedImaging smallPng (zeros 40, None))
                               original)
    /\ fst (@resizeImage (scriptedImaging smallPng (zeros 40, None))
              pngConfig (zeros 50) 300 false)
       = [(encoderFor pngConfig format originalBytes
             (@Bounds (scriptedImaging smallPng (zeros 40, None)) original)
             (firstn 512 (zeros 50)) 300,
           @resizedImage (scriptedImaging smallPng (zeros 40, None))
             original 300 false)]
    /\ @Encode (scriptedImaging smallPng (zeros 40, None))
         (encoderFor pngConfig format originalBytes
            (@Bounds (scriptedImaging smallPng (zeros 40, None)) original)
            (firstn 512 (zeros 50)) 300)
         (@resizedImage (scriptedImaging smallPng (zeros 40, None))
            original 300 false) = (zeros 40, None)
    /\ (format = CoverArtFormat pngConfig ->
        len (zeros 40) < originalBytes
        /\ 300 < originalSizeOf
                   (@Bounds (scriptedImaging smallPng (zeros 40, None))
                      original)).
Proof.
  apply (@resizeImage_buffer (scriptedImaging smallPng (zeros 40, None))
           pngConfig (zeros 50) 300 false (zeros 40) 500 None).
  vm_compute. reflexivity.
Defined.

Lemma resizeImage_nil_error_witness :
  @Decode noDecoder (zeros 50) = inl "image: unknown format"%string /\ 0 = 0.
Proof.
  apply (proj1 (@resizeImage_nil_error noDecoder webpConfig (zeros 50) 300 false
                  0 "image: unknown format"%string)).
  vm_compute. reflexivity.
Defined.

(** ** Resized artwork reader *)

Lemma reader_cases {IM : Imaging} {AS : ArtworkStore} cfg a s
    stream tag err s' :
  Reader cfg a s = ((stream, tag, err), s') ->
  (exists e,
      Get (artID a) 0 false s = (inl e, s')
      /\ stream = None /\ tag = EmptyString /\ err = Some e)
  \/ (exists first s1 resized origSize perr,
        Get (artID a) 0 false s = (inr first, s1)
        /\ snd (resizeImage cfg first (size a) (square a))
           = (resized, origSize, perr)
        /\ (perr <> None \/ resized = None)
        /\ tag = EmptyString
        /\ ((exists e,
                Get (artID a) 0 false s1 = (inl e, s')
                /\ stream = None /\ err = Some e)
            \/ (exists orig,
                  Get (artID a) 0 false s1 = (inr orig, s')
                  /\ stream = Some orig /\ err = None)))
  \/ (exists buf orig origSize,
        stream = Some buf
        /\ tag = (artIDString (artID a) ++ "@" ++ itoa (size a))%string
        /\ err = None
        /\ Get (artID a) 0 false s = (inr orig, s')
        /\ snd (resizeImage cfg orig (size a) (square a))
           = (Some buf, origSize, None)).
Proof.
  intros H.
  destruct (Get (artID a) 0 false s) as [[e | orig] s1] eqn:G.
  - rewrite (lookup_failed cfg a s e s1 G) in H.
    injection H as <- <- <- <-. left. exists e. repeat split.
  - destruct (snd (resizeImage cfg orig (size a) (square a)))
      as [[resized origSize] perr] eqn:R.
    assert (F : perr <> None \/ resized = None ->
                tag = EmptyString
                /\ ((exists e,
                        Get (artID a) 0 false s1 = (inl e, s')
                        /\ stream = None /\ err = Some e)
                    \/ (exists orig2,
                          Get (artID a) 0 false s1 = (inr orig2, s')
                          /\ stream = Some orig2 /\ err = None))).
    { intros C.
      rewrite (pipeline_fell_back cfg a s orig s1 resized origSize perr G R C)
        in H.
      destruct (Get (artID a) 0 false s1) as [[e2 | b2] s2] eqn:G2;
        cbn in H; injection H as <- <- <- <-.
      - split; [reflexivity|]. left. exists e2. repeat split.
      - split; [reflexivity|]. right. exists b2. repeat split. }
    assert (Fall : perr <> None \/ resized = None ->
      exists first s1' resized' origSize' perr',
        (@inr Error bytes orig, s1) = (inr first, s1')
        /\ snd (resizeImage cfg first (size a) (square a))
           = (resized', origSize', perr')
        /\ (perr' <> None \/ resized' = None)
        /\ tag = EmptyString
        /\ ((exists e,
                Get (artID a) 0 false s1' = (inl e, s')
                /\ stream = None /\ err = Some e)
            \/ (exists orig2,
                  Get (artID a) 0 false s1' = (inr orig2, s')
                  /\ stream = Some orig2 /\ err = None))).
    { intros C. destruct (F C) as [T O].
      exists orig, s1, resized, origSize, perr.
      split; [reflexivity|]. split; [exact R|]. split; [exact C|].
      split; assumption. }
    destruct perr as [pe |].
    + right. left. apply Fall. left. discriminate.
    + destruct resized as [buf |].
      * rewrite (pipeline_succeeded cfg a s orig s1 buf origSize G R) in H.
        injection H as <- <- <- <-.
        right. right. exists buf, orig, origSize. repeat split. exact R.
      * right. left. apply Fall. right. reflexivity.
Qed.

(** X10. [Reader] ends in exactly one of three ways.  The first lookup
    fails: its error is returned, with no stream and an empty
    discriminator.  The first lookup succeeds and the pipeline returns an
    error or the nil reader: the result is that of a second lookup, its
    error with no stream or its stream with no error, with an empty
    discriminator.  The pipeline returns a buffer and no error: that
    buffer is returned with the discriminator ["{artID}@{size}"] after a
    single lookup.  An error of the pipeline is never returned. *)
Theorem Reader_outcome {IM : Imaging} {AS : ArtworkStore} cfg a s
    stream tag err s' :
  Reader cfg a s = ((stream, tag, err), s') ->
  (exists e,
      Get (artID a) 0 false s = (inl e, s')
      /\ stream = None /\ tag = EmptyString /\ err = Some e)
  \/ (exists first s1 resized origSize perr,
        Get (artID a) 0 false s = (inr first, s1)
        /\ snd (resizeImage cfg first (size a) (square a))
           = (resized, origSize, perr)
        /\ (perr <> None \/ resized = None)
        /\ tag = EmptyString
        /\ ((exists e,
                Get (artID a) 0 false s1 = (inl e, s')
                /\ stream = None /\ err = Some e)
            \/ (exists orig,
                  Get (artID a) 0 false s1 = (inr orig, s')
                  /\ stream = Some orig /\ err = None)))
  \/ (exists buf orig origSize,
        stream = Some buf
        /\ tag = (artIDString (artID a) ++ "@" ++ itoa (size a))%string
        /\ err = None
        /\ Get (artID a) 0 false s = (inr orig, s')
        /\ snd (resizeImage cfg orig (size a) (square a))
           = (Some buf, origSize, None)).
Proof. apply reader_cases. Qed.

Lemma Reader_outcome_witness :
  (exists e,
      @Get scriptedStore (artID (album300 false)) 0 false
        [inr (zeros 50); inl "artwork gone"%string]
      = (inl e, [])
      /\ @None bytes = None /\ EmptyString = EmptyString
      /\ Some "artwork gone"%string = Some e)
  \/ (exists first s1 resized origSize perr,
        @Get scriptedStore (artID (album300 false)) 0 false
          [inr (zeros 50); inl "artwork gone"%string]
        = (inr first, s1)
        /\ snd (@resizeImage noDecoder webpConfig first
                  (size (album300 false)) (square (album300 false)))
           = (resized, origSize, perr)
        /\ (perr <> None \/ resized = None)
        /\ EmptyString = EmptyString
        /\ ((exists e,
                @Get scriptedStore (artID (album300 false)) 0 false s1
                = (inl e, [])
                /\ @None bytes = None /\ Some "artwork gone"%string = Some e)
            \/ (exists orig,
                  @Get scriptedStore (artID (album300 false)) 0 false s1
                  = (inr orig, [])
                  /\ @None bytes = Some orig
                  /\ Some "artwork gone"%string = None)))
  \/ (exists buf orig origSize,
        @None bytes = Some buf
        /\ EmptyString
           = (@artIDString scriptedStore (artID (album300 false)) ++ "@"
              ++ itoa (size (album300 false)))%string
        /\ Some "artwork gone"%string = None
        /\ @Get scriptedStore (artID (album300 false)) 0 false
             [inr (zeros 50); inl "artwork gone"%string] = (inr orig, [])
        /\ snd (@resizeImage noDecoder webpConfig orig
                  (size (album300 false)) (square (album300 false)))
           = (Some buf, origSize, None)).
Proof.
  apply (@Reader_outcome noDecoder scriptedStore webpConfig (album300 false)
           [inr (zeros 50); inl "artwork gone"%string]).
  vm_compute. reflexivity.
Defined.

(** X11. An artwork already in the configured output format and no larger
    than the requested size is served as it is: [Reader] calls no encoder
    and answers with the result of a second lookup of the original. *)
Theorem Reader_serves_fitting_original {IM : Imaging} {AS : ArtworkStore}
    cfg a s orig s1 original format originalBytes :
  Get (artID a) 0 false s = (inr orig, s1) ->
  Decode orig = inr (original, format, originalBytes) ->
  format = CoverArtFormat cfg ->
  originalSizeOf (Bounds original) <= size a ->
  fst (resizeImage cfg orig (size a) (square a)) = []
  /\ Reader cfg a s
     = (asOriginal (fst (Get (artID a) 0 false s1)),
        snd (Get (artID a) 0 false s1)).
Proof.
  intros G Hd Hf Hs.
  pose proof (skip_condition cfg orig (size a) (square a) _ _ _ Hd Hf Hs) as E.
  split; [rewrite E; reflexivity|].
  apply (pipeline_fell_back cfg a s orig s1 None
           (originalSizeOf (Bounds original)) None G).
  - rewrite E. reflexivity.
  - right. reflexivity.
Qed.

Lemma Reader_serves_fitting_original_witness :
  fst (@resizeImage (scriptedImaging smallPng (zeros 60, None))
         pngConfig (zeros 50) 800 false) = []
  /\ @Reader (scriptedImaging smallPng (zeros 60, None)) scriptedStore
       pngConfig
       (@mkReader scriptedStore "al-1"%string "al-1.0"%string 0 800 false)
       [inr (zeros 50); inr (zeros 50)]
     = ((Some (zeros 50), EmptyString, None), []).
Proof.
  apply (@Reader_serves_fitting_original
           (scriptedImaging smallPng (zeros 60, None)) scriptedStore
           pngConfig
           (@mkReader scriptedStore "al-1"%string "al-1.0"%string 0 800 false)
           [inr (zeros 50); inr (zeros 50)] (zeros 50) [inr (zeros 50)]
           (Rect 0 0 500 500) "png"%string 50 eq_refl eq_refl eq_refl).
  vm_compute. discriminate.
Defined.

(** ** The counting reader *)

Lemma wrap_add_l a b : GoInt.wrap (GoInt.wrap a + b) = GoInt.wrap (a + b).
Proof.
  unfold GoInt.wrap.
  replace ((a + 2 ^ 63) mod 2 ^ 64 - 2 ^ 63 + b + 2 ^ 63)
    with ((a + 2 ^ 63) mod 2 ^ 64 + b) by ring.
  rewrite Zplus_mod_idemp_l. f_equal. f_equal. ring.
Qed.

Lemma delivered_nonneg outs : 0 <= delivered outs.
Proof.
  unfold delivered.
  induction outs as [| out outs IH]; cbn [fold_right]; [lia|].
  pose proof (Nat2Z.is_nonneg (List.length (fst out))). unfold len at 1. lia.
Qed.

Lemma wrap_in_int z : GoInt.in_int (GoInt.wrap z).
Proof.
  unfold GoInt.wrap, GoInt.in_int, GoInt.minInt, GoInt.maxInt.
  pose proof (Z.mod_pos_bound (z + 2 ^ 63) (2 ^ 64) ltac:(lia)). lia.
Qed.

(** X12. Reading through the counting reader changes nothing for the
    client: every [Read] returns the bytes and the error of the wrapped
    reader, which is left in the same state.  The counter grows by the
    bytes delivered, wrapped to an [int]; as long as the total fits an
    [int] it is exactly the number of bytes delivered. *)
Theorem countingReader_counts {R : ioReader} (c : countingReader.t) ks :
  GoInt.in_int (countingReader.n c) ->
  fst (countEach c ks) = fst (readEach (countingReader.r c) ks)
  /\ countingReader.r (snd (countEach c ks))
     = snd (readEach (countingReader.r c) ks)
  /\ countingReader.n (snd (countEach c ks))
     = GoInt.wrap (countingReader.n c
                   + delivered (fst (readEach (countingReader.r c) ks)))
  /\ (GoInt.in_int (countingReader.n c
                    + delivered (fst (readEach (countingReader.r c) ks))) ->
      countingReader.n (snd (countEach c ks))
      = countingReader.n c
        + delivered (fst (readEach (countingReader.r c) ks))).
Proof.
  intros Hc.
  assert (M :
    fst (countEach c ks) = fst (readEach (countingReader.r c) ks)
    /\ countingReader.r (snd (countEach c ks))
       = snd (readEach (countingReader.r c) ks)
    /\ countingReader.n (snd (countEach c ks))
       = GoInt.wrap (countingReader.n c
                     + delivered (fst (readEach (countingReader.r c) ks)))).
  { revert c Hc. induction ks as [| k ks IH]; intros c Hc.
    - cbn. rewrite Z.add_0_r, wrap_id by exact Hc. repeat split.
    - cbn [countEach readEach]. unfold countingReader.Read.
      destruct (ioRead (countingReader.r c) k) as [[p e] r1] eqn:E1.
      set (c1 := countingReader.mk r1 _).
      assert (H1 : GoInt.in_int (countingReader.n c1))
        by (unfold c1; cbn [countingReader.n]; apply wrap_in_int).
      destruct (IH c1 H1) as (A & B & C).
      destruct (countEach c1 ks) as [outs c2].
      change (countingReader.r c1) with r1 in *.
      destruct (readEach r1 ks) as [outs0 s2].
      cbn [fst snd] in *. subst outs. repeat split; try assumption.
      rewrite C. unfold c1. cbn [countingReader.n delivered fold_right fst].
      rewrite wrap_add_l. f_equal. fold (delivered outs0). ring. }
  destruct M as (A & B & C).
  repeat split; try assumption.
  intros Hin. rewrite C. apply wrap_id, Hin.
Qed.

Lemma countingReader_counts_witness :
  countingReader.n (snd (@countEach bytesReader
                           (@countingReader.mk bytesReader (zeros 50) 0) [32; 32; 32]))
  = 0 + delivered (fst (@readEach bytesReader (zeros 50) [32; 32; 32])).
Proof.
  apply (@countingReader_counts bytesReader
           (@countingReader.mk bytesReader (zeros 50) 0) [32; 32; 32]).
  - unfold GoInt.in_int. vm_compute. split; discriminate.
  - unfold GoInt.in_int. vm_compute. split; discriminate.
Defined.

(** ** Key *)

Lemma nodot_uint d : nodot (NilEmpty.string_of_uint d) = true.
Proof. induction d; cbn; auto. Qed.

Lemma nodot_itoa z : nodot (itoa z) = true.
Proof.
  unfold itoa. destruct (Z.to_int z) as [d | d]; cbn [NilZero.string_of_int].
  - destruct d; try apply nodot_uint. reflexivity.
  - cbn [nodot]. destruct d; try apply nodot_uint. reflexivity.
Qed.

(** [%d] renders different integers differently. *)
Lemma itoa_inj a b : itoa a = itoa b -> a = b.
Proof.
  unfold itoa. intros H.
  assert (N : forall z, Z.to_int z <> Decimal.Pos Decimal.Nil
                        /\ Z.to_int z <> Decimal.Neg Decimal.Nil).
  { intros [| p | p]; cbn; split; try discriminate;
      intros E; injection E as E;
      apply (DecimalPos.Unsigned.to_uint_nonnil p E). }
  apply DecimalZ.to_int_inj.
  assert (E : Some (Z.to_int a) = Some (Z.to_int b)).
  { rewrite <- (NilZero.isi (Z.to_int a)) by apply N.
    rewrite <- (NilZero.isi (Z.to_int b)) by apply N.
    rewrite H. reflexivity. }
  injection E as E. exact E.
Qed.

Lemma nodot_sep k d : nodot (k ++ String dot d) = false.
Proof.
  induction k as [| c k IH]; cbn [append nodot].
  - rewrite Ascii.eqb_refl. reflexivity.
  - rewrite IH. apply andb_false_r.
Qed.

(** A string is cut in one way only at its last separator. *)
Lemma sep_inj k1 : forall k2 d1 d2,
  nodot d1 = true -> nodot d2 = true ->
  (k1 ++ String dot d1 = k2 ++ String dot d2)%string ->
  k1 = k2 /\ d1 = d2.
Proof.
  induction k1 as [| c k1 IH]; intros [| c2 k2] d1 d2 H1 H2 E; cbn [append] in E.
  - injection E as E. split; [reflexivity | exact E].
  - injection E as _ E. rewrite E, nodot_sep in H1. discriminate.
  - injection E as _ E. rewrite <- E, nodot_sep in H2. discriminate.
  - injection E as -> E. destruct (IH k2 d1 d2 H1 H2 E) as [-> ->].
    split; reflexivity.
Qed.

Lemma Key_parts {AS : ArtworkStore} cfg (a : resizedArtworkReader) :
  Key cfg a
  = ((cacheKey a ++ String dot (itoa (size a)))
     ++ String dot (if square a then "square" else CoverArtFormat cfg))%string.
Proof. unfold Key. destruct (square a); reflexivity. Qed.

(** X13. The cache key tells resized artworks apart: when the configured
    format is one of the formats of the encoder dispatch, two readers with
    the same key have the same original cache key, the same size and the
    same square flag. *)
Theorem Key_injective {AS : ArtworkStore} cfg (a b : resizedArtworkReader) :
  In (CoverArtFormat cfg) coverArtFormats ->
  Key cfg a = Key cfg b ->
  cacheKey a = cacheKey b /\ size a = size b /\ square a = square b.
Proof.
  intros Hin E. rewrite !Key_parts in E.
  assert (Hf : nodot (CoverArtFormat cfg) = true
               /\ CoverArtFormat cfg <> "square"%string).
  { cbn in Hin.
    repeat (destruct Hin as [<- | Hin]; [split; [reflexivity | discriminate]|]).
    contradiction. }
  destruct Hf as [Hf Hn].
  apply sep_inj in E.
  - destruct E as [E1 E2].
    apply sep_inj in E1; try apply nodot_itoa.
    destruct E1 as [Ek Ed]. apply itoa_inj in Ed.
    repeat split; try assumption.
    destruct (square a), (square b); try reflexivity; congruence.
  - destruct (square a); [reflexivity | exact Hf].
  - destruct (square b); [reflexivity | exact Hf].
Qed.

Lemma Key_injective_witness :
  cacheKey (album300 false) = cacheKey (album300' false)
  /\ size (album300 false) = size (album300' false)
  /\ square (album300 false) = square (album300' false).
Proof.
  apply (@Key_injective scriptedStore webpConfig).
  - cbn. tauto.
  - reflexivity.
Defined.

(** ** resizedFromOriginal *)

(** X14. The constructor fails exactly when the original cannot be found,
    with that error and no reader.  Otherwise the reader keeps the
    identity, size and flag it was asked for and the original's cache key
    and modification time, so that its key is
    ["{originalKey}.{size}.square"] or ["{originalKey}.{size}.{format}"]
    and its [LastUpdated] is the original's. *)
Theorem resizedFromOriginal_reader {AS : ArtworkStore} {AR : ArtworkReaders}
    cfg id sz sq s :
  (forall err s1,
      getArtworkReader id 0 false s = (inl err, s1) <->
      resizedFromOriginal id sz sq s = (inl err, s1))
  /\ (forall key t s1,
         getArtworkReader id 0 false s = (inr (key, t), s1) ->
         exists a,
           resizedFromOriginal id sz sq s = (inr a, s1)
           /\ artID a = id /\ size a = sz /\ square a = sq
           /\ LastUpdated a = t
           /\ Key cfg a
              = (key ++ "." ++ itoa sz
                 ++ (if sq then ".square" else "." ++ CoverArtFormat cfg))%string).
Proof.
  split.
  - intros err s1. unfold resizedFromOriginal.
    destruct (getArtworkReader id 0 false s) as [[e | [key t]] s0]; split;
      intros H; try discriminate; injection H as <- <-; reflexivity.
  - intros key t s1 H. unfold resizedFromOriginal. rewrite H.
    eexists. split; [reflexivity|]. repeat split.
    unfold Key. cbn [cacheKey size square].
    destruct sq; rewrite append_assoc; reflexivity.
Qed.

Lemma resizedFromOriginal_reader_witness :
  (exists a,
     @resizedFromOriginal scriptedStore scriptedReaders "al-1"%string 300 true
       [inr (zeros 50)] = (inr a, [inr (zeros 50)])
     /\ artID a = "al-1"%string /\ size a = 300 /\ square a = true
     /\ LastUpdated a = 1700000000
     /\ Key webpConfig a
        = ("al-1.0" ++ "." ++ itoa 300
           ++ (if true then ".square" else "." ++ CoverArtFormat webpConfig))%string)
  /\ @resizedFromOriginal scriptedStore scriptedReaders "al-1"%string 300 true []
     = (inl "artwork not found"%string, []).
Proof.
  split.
  - apply (proj2 (@resizedFromOriginal_reader scriptedStore scriptedReaders
                    webpConfig "al-1"%string 300 true [inr (zeros 50)])).
    reflexivity.
  - apply (proj1 (proj1 (@resizedFromOriginal_reader scriptedStore scriptedReaders
                           webpConfig "al-1"%string 300 true [])
                        "artwork not found"%string [])).
    reflexivity.
Defined.

(** ** Further properties of the detector and the pipeline *)

(** X15. For a WebP source whose RIFF/WEBP header starts with a VP8L chunk
    tag, of up to [2 ^ 50] bytes and pixels: when the header holds the 8
    bytes of that chunk header (20 bytes in all) the source is encoded
    losslessly exactly when it has fewer bytes than pixels; in a header of
    16 to 19 bytes the tag is not looked at and the threshold is the one
    of the other formats, 3 bits per pixel. *)
Theorem webp_vp8l_first originalBytes bounds header :
  isRiffWebp header = true ->
  slice header 12 16 = lit "VP8L" ->
  0 < totalPixels bounds <= 2 ^ 50 ->
  0 <= originalBytes <= 2 ^ 50 ->
  shouldEncodeLossless "webp" originalBytes bounds header
  = if 20 <=? len header then originalBytes <? totalPixels bounds
    else 8 * originalBytes <? 3 * totalPixels bounds.
Proof.
  intros Hsig Htag Hp Hb.
  rewrite (lossless_integers _ _ _ _ Hp Hb).
  unfold isNativeLossless.
  cbn [String.eqb Ascii.eqb Bool.eqb andb negb]. rewrite Hsig.
  cbn [webpScan]. change (12 + 8) with 20. change (12 + 4) with 16.
  rewrite Htag. destruct (20 <=? len header); reflexivity.
Qed.

Lemma webp_vp8l_first_witness :
  shouldEncodeLossless "webp" 200000 (Rect 0 0 500 500)
    (lit "RIFF" ++ zeros 4 ++ lit "WEBP" ++ lit "VP8L" ++ zeros 2)
  = if 20 <=? len (lit "RIFF" ++ zeros 4 ++ lit "WEBP" ++ lit "VP8L" ++ zeros 2)
    then 200000 <? totalPixels (Rect 0 0 500 500)
    else 8 * 200000 <? 3 * totalPixels (Rect 0 0 500 500).
Proof.
  apply (webp_vp8l_first 200000 (Rect 0 0 500 500)
           (lit "RIFF" ++ zeros 4 ++ lit "WEBP" ++ lit "VP8L" ++ zeros 2)).
  - vm_compute. reflexivity.
  - vm_compute. reflexivity.
  - vm_compute. split; [reflexivity | discriminate].
  - vm_compute. split; discriminate.
Defined.

Lemma ltb_mono_l (x y k : F64.t) :
  (x <= y)%Q -> F64.ltb y k = true -> F64.ltb x k = true.
Proof.
  unfold F64.ltb. intros Hxy H.
  destruct (Qle_bool k y) eqn:Ey; [discriminate|].
  destruct (Qle_bool k x) eqn:Ex; [| reflexivity].
  apply Qle_bool_iff in Ex.
  assert (Hk : (k <= y)%Q) by (apply Qle_trans with x; assumption).
  apply Qle_bool_iff in Hk. congruence.
Qed.

(** X16. Fewer bytes for the same picture never turn a lossless decision
    into a lossy one: if a source of [originalBytes2] bytes is encoded
    losslessly, so is one of fewer bytes with the same format, bounds and
    header. *)
Theorem shouldEncodeLossless_fewer_bytes format bounds header
    originalBytes1 originalBytes2 :
  0 < totalPixels bounds ->
  0 <= originalBytes1 -> originalBytes1 <= originalBytes2 ->
  originalBytes2 * 8 <= GoInt.maxInt ->
  shouldEncodeLossless format originalBytes2 bounds header = true ->
  shouldEncodeLossless format originalBytes1 bounds header = true.
Proof.
  intros Hp H0 H12 Hmax.
  assert (W1 : GoInt.wrap (originalBytes1 * 8) = originalBytes1 * 8).
  { apply wrap_id. unfold GoInt.in_int, GoInt.minInt, GoInt.maxInt in *. lia. }
  assert (W2 : GoInt.wrap (originalBytes2 * 8) = originalBytes2 * 8).
  { apply wrap_id. unfold GoInt.in_int, GoInt.minInt, GoInt.maxInt in *. lia. }
  assert (Hb : (bitsPerPixel originalBytes1 bounds
                <= bitsPerPixel originalBytes2 bounds)%Q).
  { unfold bitsPerPixel, F64.div. rewrite W1, W2.
    apply F64Facts.round_mono. unfold Qdiv.
    apply Qmult_le_compat_r; [apply F64Facts.of_int_mono; lia|].
    apply Qinv_le_0_compat, Qlt_le_weak.
    apply Qlt_le_trans with 1%Q; [reflexivity|].
    apply F64Facts.of_int_ge_1. lia. }
  assert (D : forall native : bool,
    (if native && F64.ltb (bitsPerPixel originalBytes2 bounds) 8%Q then true
     else if F64.ltb (bitsPerPixel originalBytes2 bounds) 3%Q then true
     else false) = true ->
    (if native && F64.ltb (bitsPerPixel originalBytes1 bounds) 8%Q then true
     else if F64.ltb (bitsPerPixel originalBytes1 bounds) 3%Q then true
     else false) = true).
  { intros native H.
    destruct (F64.ltb (bitsPerPixel originalBytes2 bounds) 3%Q) eqn:E3.
    - rewrite (ltb_mono_l _ _ _ Hb E3).
      destruct native;
        destruct (F64.ltb (bitsPerPixel originalBytes1 bounds) 8%Q); reflexivity.
    - destruct native; cbn [andb] in *; [| discriminate].
      destruct (F64.ltb (bitsPerPixel originalBytes2 bounds) 8%Q) eqn:E8;
        [| discriminate].
      rewrite (ltb_mono_l _ _ _ Hb E8). reflexivity. }
  unfold shouldEncodeLossless.
  destruct (totalPixels bounds =? 0); [discriminate|].
  destruct (String.eqb format "png"); [apply D|].
  destruct (String.eqb format "jpeg"); [discriminate|].
  destruct (String.eqb format "webp" && isRiffWebp header).
  - destruct (webpScan _ header 12) as [b |]; [apply D | apply (D false)].
  - apply (D false).
Qed.

Lemma shouldEncodeLossless_fewer_bytes_witness :
  shouldEncodeLossless "png" 20000 (Rect 0 0 500 500) [] = true.
Proof.
  apply (shouldEncodeLossless_fewer_bytes "png" (Rect 0 0 500 500) []
           20000 200000).
  - vm_compute. reflexivity.
  - discriminate.
  - discriminate.
  - vm_compute. discriminate.
  - vm_compute. reflexivity.
Defined.

(** X17. [resizeImage] calls no encoder exactly when the source does not
    decode or the skip condition holds (configured format, and not larger
    than requested); in every other case it calls exactly one. *)
Theorem resizeImage_encodes {IM : Imaging} cfg reader size square :
  (fst (resizeImage cfg reader size square) = [] <->
   (exists e, Decode reader = inl e)
   \/ (exists original format originalBytes,
         Decode reader = inr (original, format, originalBytes)
         /\ format = CoverArtFormat cfg
         /\ originalSizeOf (Bounds original) <= size))
  /\ (List.length (fst (resizeImage cfg reader size square)) <= 1)%nat.
Proof.
  destruct (Decode reader) as [e | [[original format] originalBytes]] eqn:Hd.
  - unfold resizeImage. rewrite Hd. cbn [fst List.length]. split; [| apply Nat.le_0_l].
    split; [intros _; left; exists e; reflexivity | reflexivity].
  - destruct (String.eqb_spec format (CoverArtFormat cfg)) as [Ef | Ef];
      [destruct (Z_le_gt_dec (originalSizeOf (Bounds original)) size)
         as [Es | Es]|].
    + rewrite (skip_condition _ _ _ _ _ _ _ Hd Ef Es). cbn [fst List.length]. split; [| apply Nat.le_0_l].
      split; [| reflexivity]. intros _. right.
      exists original, format, originalBytes. repeat split; assumption.
    + destruct (Encode (encoderFor cfg format originalBytes (Bounds original)
                          (firstn 512 reader) size)
                  (resizedImage original size square)) as [buf err] eqn:E0.
      assert (Hskip : ~ (format = CoverArtFormat cfg
                         /\ originalSizeOf (Bounds original) <= size))
        by (intros [_ ?]; lia).
      rewrite (encoder_outcome _ _ _ _ _ _ _ Hd buf err Hskip E0).
      cbn [fst List.length]. split; [| apply le_n]. split; [discriminate|].
      intros [[e He] | (o & f & ob & Ho & _ & Hs)]; [discriminate|].
      injection Ho as <- <- <-. lia.
    + destruct (Encode (encoderFor cfg format originalBytes (Bounds original)
                          (firstn 512 reader) size)
                  (resizedImage original size square)) as [buf err] eqn:E0.
      assert (Hskip : ~ (format = CoverArtFormat cfg
                         /\ originalSizeOf (Bounds original) <= size))
        by tauto.
      rewrite (encoder_outcome _ _ _ _ _ _ _ Hd buf err Hskip E0).
      cbn [fst List.length]. split; [| apply le_n]. split; [discriminate|].
      intros [[e He] | (o & f & ob & Ho & Hf & _)]; [discriminate|].
      injection Ho as <- <- <-. contradiction.
Qed.

Lemma resizeImage_encodes_witness :
  fst (@resizeImage (scriptedImaging smallPng (zeros 60, None))
         pngConfig (zeros 50) 800 false) = []
  /\ (List.length (fst (@resizeImage (scriptedImaging smallPng (zeros 60, None))
                          pngConfig (zeros 50) 300 false)) <= 1)%nat.
Proof.
  split.
  - apply (proj1 (@resizeImage_encodes
                    (scriptedImaging smallPng (zeros 60, None))
                    pngConfig (zeros 50) 800 false)).
    right. exists (Rect 0 0 500 500), "png"%string, 50.
    repeat split. vm_compute. discriminate.
  - apply (proj2 (@resizeImage_encodes
                    (scriptedImaging smallPng (zeros 60, None))
                    pngConfig (zeros 50) 300 false)).
Defined.

(** X18. Every resized stream [Reader] hands out, the one that comes with a
    discriminator, was written by an encoder call that reported no error,
    on an original that decoded; and when the original is in the
    configured output format the stream is strictly shorter than the bytes
    read while decoding it. *)
Theorem Reader_resized_stream {IM : Imaging} {AS : ArtworkStore} cfg a s
    stream tag err s' :
  Reader cfg a s = ((stream, tag, err), s') ->
  tag <> EmptyString ->
  exists buf orig original format originalBytes,
    stream = Some buf /\ err = None
    /\ Get (artID a) 0 false s = (inr orig, s')
    /\ Decode orig = inr (original, format, originalBytes)
    /\ Encode (encoderFor cfg format originalBytes (Bounds original)
                          (firstn 512 orig) (size a))
              (resizedImage original (size a) (square a)) = (buf, None)
    /\ (format = CoverArtFormat cfg -> len buf < originalBytes).
Proof.
  intros H Htag.
  destruct (reader_cases cfg a s stream tag err s' H)
    as [(e & _ & _ & T & _) | [(f & s1 & rd & sz & pe & _ & _ & _ & T & _)
                              | (buf & orig & origSize & Hs & _ & He & G & R)]];
    try contradiction.
  destruct (buffer_origin cfg orig (size a) (square a) buf origSize None R)
    as (original & format & originalBytes & Hd & _ & _ & E & Hlt).
  exists buf, orig, original, format, originalBytes.
  repeat split; try assumption. intros Hf. apply Hlt, Hf.
Qed.

Lemma Reader_resized_stream_witness :
  exists buf orig original format originalBytes,
    Some (zeros 100) = Some buf /\ @None Error = None
    /\ @Get scriptedStore (artID (album300 false)) 0 false
         [inr (zeros 512); inr (zeros 512)] = (inr orig, [inr (zeros 512)])
    /\ @Decode (scriptedImaging largeJpeg (zeros 100, None)) orig
       = inr (original, format, originalBytes)
    /\ @Encode (scriptedImaging largeJpeg (zeros 100, None))
         (encoderFor webpConfig format originalBytes
            (@Bounds (scriptedImaging largeJpeg (zeros 100, None)) original)
            (firstn 512 orig) (size (album300 false)))
         (@resizedImage (scriptedImaging largeJpeg (zeros 100, None))
            original (size (album300 false)) (square (album300 false)))
       = (buf, None)
    /\ (format = CoverArtFormat webpConfig -> len buf < originalBytes).
Proof.
  apply (@Reader_resized_stream (scriptedImaging largeJpeg (zeros 100, None))
           scriptedStore webpConfig (album300 false)
           [inr (zeros 512); inr (zeros 512)]
           (Some (zeros 100)) "al-1@300"%string None [inr (zeros 512)]).
  - vm_compute. reflexivity.
  - discriminate.
Defined.
